(** * Snowflake identifier generator: a shallow embedding of [snowflake.go]

    The Go package keeps a mutex-guarded record with the last timestamp, the
    node identity and the per-millisecond sequence, and packs them into one
    [int64].  Here [int64] values are integers together with an explicit
    two's-complement wrap, the wall clock is the list of the successive
    results of [time.Now().UnixNano()], and one call of [NextId] is one
    atomic step on the pair (generator state, remaining clock readings):
    the mutex makes the whole body a critical section, so a call never
    interleaves with another one.  The list is a finite prefix of what the
    clock will show: a call that is still spinning in [tilNextMillis] when
    the readings run out has not returned on that prefix, and yields [None]. *)

From Stdlib Require Import ZArith Lia List Bool String Ascii.
From Stdlib Require Import DecimalString DecimalZ Sorted.
Import ListNotations.

Local Open Scope Z_scope.

(** ** 64-bit signed integers *)

Module Int64.

Definition modulus : Z := 2 ^ 64.
Definition half : Z := 2 ^ 63.
Definition min_int : Z := - half.
Definition max_int : Z := half - 1.

(** Two's-complement reduction of an integer to the [int64] range. *)
Definition wrap (z : Z) : Z := (z + half) mod modulus - half.

Definition in_range (z : Z) : Prop := min_int <= z <= max_int.

Definition add (a b : Z) : Z := wrap (a + b).
Definition sub (a b : Z) : Z := wrap (a - b).
Definition shl (a n : Z) : Z := wrap (Z.shiftl a n).
Definition and (a b : Z) : Z := Z.land a b.
Definition or (a b : Z) : Z := Z.lor a b.

(** Go's [/] on integers truncates toward zero. *)
Definition quo (a b : Z) : Z := wrap (Z.quot a b).

(** The same 64 bits read as a [uint64]. *)
Definition unsigned (z : Z) : Z := z mod modulus.

End Int64.

(** ** [fmt.Errorf] with a single [%d] verb *)

Definition fmt_d (a : Z) : string := NilZero.string_of_int (Z.to_int a).

Fixpoint Sprintf (format : string) (a : Z) : string :=
  match format with
  | String "%" (String "d" rest) => fmt_d a ++ rest
  | String c rest => String c (Sprintf rest a)
  | EmptyString => EmptyString
  end.

(** A Go [error] built by [fmt.Errorf(format, a)]; [Error] is its message. *)
Record error : Type := Errorf { format : string; arg : Z }.

Definition Error (e : error) : string := Sprintf (format e) (arg e).

(** ** Constants of the layout (the [const] block) *)

Definition twepoch : Z := 1577808000000.

Definition workerIdBits : Z := 5.
Definition datacenterIdBits : Z := 5.
Definition maxWorkerId : Z := Z.lxor (-1) (Z.shiftl (-1) workerIdBits).
Definition maxDatacenterId : Z := Z.lxor (-1) (Z.shiftl (-1) datacenterIdBits).
Definition sequenceBits : Z := 12.

Definition workerIdShift : Z := sequenceBits.
Definition datacenterIdShift : Z := sequenceBits + workerIdBits.
Definition timestampLeftShift : Z := sequenceBits + workerIdBits + datacenterIdBits.
Definition sequenceMask : Z := Z.lxor (-1) (Z.shiftl (-1) sequenceBits).

(** ** The generator *)

(** [type Snowflake struct]; the mutex carries no data. *)
Record Snowflake : Type := mkSnowflake {
  lastTimestamp : Z;
  workerId : Z;
  datacenterId : Z;
  sequence : Z
}.

Definition set_sequence (s : Snowflake) (q : Z) : Snowflake :=
  {| lastTimestamp := lastTimestamp s; workerId := workerId s;
     datacenterId := datacenterId s; sequence := q |}.

Definition set_lastTimestamp (s : Snowflake) (t : Z) : Snowflake :=
  {| lastTimestamp := t; workerId := workerId s;
     datacenterId := datacenterId s; sequence := sequence s |}.

(** [func New]: [inl] is the generator, [inr] the error returned with a nil
    pointer.  The [log.Printf] line writes to the process log only. *)
Definition New (workerId datacenterId : Z) : Snowflake + error :=
  if (workerId <? 0) || (workerId >? maxWorkerId) then
    inr (Errorf "worker Id can't be greater than %d or less than 0" maxWorkerId)
  else if (datacenterId <? 0) || (datacenterId >? maxDatacenterId) then
    inr (Errorf "datacenter Id can't be greater than %d or less than 0" datacenterId)
  else
    inl {| lastTimestamp := 0; workerId := workerId;
           datacenterId := datacenterId; sequence := 0 |}.

(** ** The clock *)

(** The readings [time.Now().UnixNano()] will return, in order. *)
Definition clock : Type := list Z.

(** Milliseconds of one nanosecond reading: [UnixNano() / 1e6].  The reading
    is an [int64], so a list entry stands for the 64 bits it reduces to;
    the division by the constant truncates toward zero. *)
Definition millis (nanos : Z) : Z := Int64.quo (Int64.wrap nanos) 1000000.

(** [func timeGen]: consumes one reading. *)
Definition timeGen (clk : clock) : option (Z * clock) :=
  match clk with
  | [] => None
  | nanos :: clk' => Some (millis nanos, clk')
  end.

(** The [for timestamp <= lastTimestamp] loop of [tilNextMillis], entered
    with the reading already taken. *)
Fixpoint spin (lastTimestamp timestamp : Z) (clk : clock) {struct clk}
  : option (Z * clock) :=
  if timestamp <=? lastTimestamp then
    match clk with
    | [] => None
    | nanos :: clk' => spin lastTimestamp (millis nanos) clk'
    end
  else Some (timestamp, clk).

(** [func tilNextMillis]. *)
Definition tilNextMillis (lastTimestamp : Z) (clk : clock) : option (Z * clock) :=
  match timeGen clk with
  | None => None
  | Some (timestamp, clk') => spin lastTimestamp timestamp clk'
  end.

(** ** Issuing an identifier *)

(** What a call that returns hands back: [(id, nil)] or [(0, err)]. *)
Inductive outcome : Type :=
| Ok (id : Z)
| Err (e : error).

(** The [return] expression of [NextId]. *)
Definition compose (timestamp : Z) (s : Snowflake) : Z :=
  Int64.or
    (Int64.or
       (Int64.or (Int64.shl (Int64.sub timestamp twepoch) timestampLeftShift)
                 (Int64.shl (datacenterId s) datacenterIdShift))
       (Int64.shl (workerId s) workerIdShift))
    (sequence s).

(** [func (s *Snowflake) NextId]: the outcome, the generator afterwards and
    the readings left; [None] when the call never returns. *)
Definition NextId (s : Snowflake) (clk : clock)
  : option (outcome * Snowflake * clock) :=
  match timeGen clk with
  | None => None
  | Some (timestamp, clk1) =>
    if timestamp <? lastTimestamp s then
      Some (Err (Errorf
                   "Clock moved backwards.  Refusing to generate id for %d milliseconds"
                   (Int64.sub (lastTimestamp s) timestamp)),
            s, clk1)
    else
      let branch :=
        if timestamp =? lastTimestamp s then
          let s1 :=
            set_sequence s (Int64.and (Int64.add (sequence s) 1) sequenceMask) in
          if sequence s1 =? 0 then
            match tilNextMillis (lastTimestamp s1) clk1 with
            | None => None
            | Some (timestamp', clk2) => Some (timestamp', s1, clk2)
            end
          else Some (timestamp, s1, clk1)
        else Some (timestamp, set_sequence s 0, clk1)
      in
      match branch with
      | None => None
      | Some (timestamp', s2, clk2) =>
        let s3 := set_lastTimestamp s2 timestamp' in
        Some (Ok (compose timestamp' s3), s3, clk2)
      end
  end.

(** [n] calls one after the other on the same generator and clock: the
    outcomes in order, the final generator and the readings left. *)
Fixpoint calls (n : nat) (s : Snowflake) (clk : clock)
  : option (list outcome * Snowflake * clock) :=
  match n with
  | O => Some ([], s, clk)
  | S n' =>
    match NextId s clk with
    | None => None
    | Some (o, s', clk') =>
      match calls n' s' clk' with
      | None => None
      | Some (os, s'', clk'') => Some (o :: os, s'', clk'')
      end
    end
  end.

(** Generators a program can hold: any number of calls, each on whatever
    readings the clock then supplies. *)
Inductive steps : Snowflake -> Snowflake -> Prop :=
| steps_refl s : steps s s
| steps_call s s1 s2 clk o clk' :
    steps s s1 -> NextId s1 clk = Some (o, s2, clk') -> steps s s2.

(** ** Decoding the fields of an identifier *)

Definition sequenceOf (id : Z) : Z := Z.land id sequenceMask.
Definition workerIdOf (id : Z) : Z := Z.land (Z.shiftr id workerIdShift) maxWorkerId.
Definition datacenterIdOf (id : Z) : Z :=
  Z.land (Z.shiftr id datacenterIdShift) maxDatacenterId.
(** Bits 62-22. *)
Definition timestampOf (id : Z) : Z :=
  Z.land (Z.shiftr id timestampLeftShift) (Z.ones 41).

(** The nanosecond reading at the start of millisecond [t]. *)
Definition nanosOf (t : Z) : Z := t * 1000000.

(** ** The invariant of a generator *)

(** Largest and smallest millisecond [timeGen] can return. *)
Definition maxMillis : Z := 9223372036854.

Definition valid (s : Snowflake) : Prop :=
  (0 <= workerId s <= maxWorkerId) /\
  (0 <= datacenterId s <= maxDatacenterId) /\
  (0 <= sequence s <= sequenceMask) /\
  (0 <= lastTimestamp s <= maxMillis).

(** The integer a valid generator packs for timestamp [t] and sequence [q],
    before reduction to 64 bits. *)
Definition pack (t d w q : Z) : Z :=
  (t - twepoch) * 2 ^ 22 + d * 2 ^ 17 + w * 2 ^ 12 + q.

(** ** One call, as a relation *)

(** The generator a successful call leaves behind: same identity, the
    timestamp used and the sequence decided. *)
Definition issued (s : Snowflake) (timestamp q : Z) : Snowflake :=
  {| lastTimestamp := timestamp; workerId := workerId s;
     datacenterId := datacenterId s; sequence := q |}.

(** Every way a call can return. *)
Inductive returned (s : Snowflake) (nanos : Z) (clk : clock)
  : outcome -> Snowflake -> clock -> Prop :=
| ret_regress :
    millis nanos < lastTimestamp s ->
    returned s nanos clk
      (Err (Errorf
              "Clock moved backwards.  Refusing to generate id for %d milliseconds"
              (Int64.sub (lastTimestamp s) (millis nanos))))
      s clk
| ret_advance :
    lastTimestamp s < millis nanos ->
    returned s nanos clk
      (Ok (compose (millis nanos) (issued s (millis nanos) 0)))
      (issued s (millis nanos) 0) clk
| ret_same :
    millis nanos = lastTimestamp s ->
    (sequence s + 1) mod 4096 <> 0 ->
    returned s nanos clk
      (Ok (compose (lastTimestamp s)
             (issued s (lastTimestamp s) ((sequence s + 1) mod 4096))))
      (issued s (lastTimestamp s) ((sequence s + 1) mod 4096)) clk
| ret_rollover timestamp clk' :
    millis nanos = lastTimestamp s ->
    (sequence s + 1) mod 4096 = 0 ->
    tilNextMillis (lastTimestamp s) clk = Some (timestamp, clk') ->
    returned s nanos clk
      (Ok (compose timestamp (issued s timestamp 0)))
      (issued s timestamp 0) clk'.

(** The pair (timestamp, sequence) as one number: for a valid generator the
    order on [stamp] is the lexicographic order on the pair. *)
Definition stamp (s : Snowflake) : Z := lastTimestamp s * 4096 + sequence s.

(** ** Reading a run of calls *)

(** The outcome of call number [k] (from 0) of a run. *)
Definition nth_outcome (k : nat) (run : option (list outcome * Snowflake * clock))
  : option outcome :=
  match run with
  | None => None
  | Some (os, _, _) => nth_error os k
  end.

(** The generator and the readings left when a run ends. *)
Definition state_after (run : option (list outcome * Snowflake * clock))
  : option (Snowflake * clock) :=
  match run with
  | None => None
  | Some (_, s, clk) => Some (s, clk)
  end.

(** ** Two clocks at the edges of the layout *)

(** The clock readings of a burst that fills the last millisecond of the
    41-bit span, followed by one reading in the next millisecond. *)
Definition clock_at_41_bit_boundary : clock :=
  repeat (nanosOf (twepoch + 2 ^ 41 - 1)) 4096 ++ [nanosOf (twepoch + 2 ^ 41)].

(** The readings of 4096 calls in millisecond 5 of the Unix era, one more
    reading in it, then a reading one millisecond after the epoch. *)
Definition clock_rolling_over_before_epoch : clock :=
  repeat (nanosOf 5) 4096 ++ [nanosOf 5; nanosOf (twepoch + 1)].

(** ** Runs under a well-behaved clock *)

(** A call that handed back an identifier. *)
Definition succeeded (o : outcome) : Prop :=
  match o with
  | Ok _ => True
  | Err _ => False
  end.

(** A clock whose millisecond never goes back. *)
Definition nondecreasing (clk : clock) : Prop :=
  StronglySorted (fun a b => millis a <= millis b) clk.

(** ** The package test *)





(** * Facts *)

(** ** Constants *)

Lemma maxWorkerId_eq : maxWorkerId = 31.
Proof. reflexivity. Qed.

Lemma maxDatacenterId_eq : maxDatacenterId = 31.
Proof. reflexivity. Qed.

Lemma sequenceMask_eq : sequenceMask = 4095.
Proof. reflexivity. Qed.

Lemma shifts_eq :
  workerIdShift = 12 /\ datacenterIdShift = 17 /\ timestampLeftShift = 22.
Proof. repeat split. Qed.

(** ** Wrap-around *)

Ltac int64_unfold :=
  unfold Int64.in_range, Int64.wrap, Int64.min_int, Int64.max_int,
    Int64.half, Int64.modulus in *.

Lemma wrap_in_range z : Int64.in_range (Int64.wrap z).
Proof.
  int64_unfold.
  pose proof (Z.mod_pos_bound (z + 2 ^ 63) (2 ^ 64) eq_refl). lia.
Qed.

Lemma wrap_small z : Int64.in_range z -> Int64.wrap z = z.
Proof.
  int64_unfold. intros H.
  rewrite Z.mod_small by lia. lia.
Qed.

Lemma wrap_congr z : Int64.unsigned (Int64.wrap z) = Int64.unsigned z.
Proof.
  unfold Int64.unsigned. int64_unfold.
  rewrite Zminus_mod_idemp_l.
  f_equal. lia.
Qed.

Lemma millis_bounds nanos : - maxMillis <= millis nanos <= maxMillis.
Proof.
  unfold millis, Int64.quo, maxMillis.
  pose proof (wrap_in_range nanos) as H. revert H.
  generalize (Int64.wrap nanos). intros n H.
  assert (B : -9223372036854 <= Z.quot n 1000000 <= 9223372036854).
  { int64_unfold. Z.quot_rem_to_equations. lia. }
  rewrite wrap_small; [exact B | int64_unfold; lia].
Qed.

Lemma millis_nanosOf t :
  - maxMillis <= t <= maxMillis -> millis (nanosOf t) = t.
Proof.
  unfold millis, Int64.quo, nanosOf, maxMillis. intros H.
  rewrite (wrap_small (t * 1000000)) by (int64_unfold; lia).
  rewrite Z.quot_mul by lia.
  apply wrap_small. int64_unfold. lia.
Qed.

(** ** Packing disjoint bit fields *)

Lemma land_shifted_low a n b :
  0 <= n -> 0 <= b < 2 ^ n -> Z.land (a * 2 ^ n) b = 0.
Proof.
  intros Hn Hb. apply Z.bits_inj'. intros m Hm.
  rewrite Z.land_spec, Z.bits_0.
  destruct (Z.lt_ge_cases m n) as [Hlt | Hge].
  - rewrite Z.mul_pow2_bits_low by assumption. reflexivity.
  - rewrite <- (Z.mod_small b (2 ^ n)) by assumption.
    rewrite Z.mod_pow2_bits_high by lia.
    apply andb_false_r.
Qed.

Lemma lor_shifted_low a n b :
  0 <= n -> 0 <= b < 2 ^ n -> Z.lor (a * 2 ^ n) b = a * 2 ^ n + b.
Proof.
  intros Hn Hb.
  pose proof (land_shifted_low a n b Hn Hb) as H0.
  rewrite <- Z.lxor_lor by exact H0.
  symmetry. apply Z.add_nocarry_lxor. exact H0.
Qed.

(** A wrapped multiple of [2^22] is still a multiple of [2^22]. *)
Lemma wrap_shifted x : exists h, Int64.wrap (x * 2 ^ 22) = h * 2 ^ 22.
Proof.
  exists (x - ((x * 2 ^ 22 + 2 ^ 63) / 2 ^ 64) * 2 ^ 42).
  int64_unfold.
  pose proof (Z.div_mod (x * 2 ^ 22 + 2 ^ 63) (2 ^ 64)) as E.
  lia.
Qed.

Section Compose.

Variables (t : Z) (s : Snowflake).
Hypothesis Hw : 0 <= workerId s <= maxWorkerId.
Hypothesis Hd : 0 <= datacenterId s <= maxDatacenterId.
Hypothesis Hq : 0 <= sequence s <= sequenceMask.
Hypothesis Ht : - maxMillis <= t <= maxMillis.

(** The low 22 bits are the three small fields laid side by side, the rest
    is the wrapped, shifted timestamp. *)
Lemma compose_sum :
  compose t s =
  Int64.wrap ((t - twepoch) * 2 ^ 22)
  + datacenterId s * 2 ^ 17 + workerId s * 2 ^ 12 + sequence s.
Proof.
  rewrite maxWorkerId_eq in Hw. rewrite maxDatacenterId_eq in Hd.
  rewrite sequenceMask_eq in Hq. unfold maxMillis in Ht.
  unfold compose, Int64.or, Int64.shl, Int64.sub.
  change timestampLeftShift with 22. change datacenterIdShift with 17.
  change workerIdShift with 12.
  rewrite !Z.shiftl_mul_pow2 by lia.
  rewrite (wrap_small (t - twepoch)) by (unfold twepoch; int64_unfold; lia).
  rewrite (wrap_small (datacenterId s * 2 ^ 17)) by (int64_unfold; lia).
  rewrite (wrap_small (workerId s * 2 ^ 12)) by (int64_unfold; lia).
  destruct (wrap_shifted (t - twepoch)) as [h Eh]. rewrite Eh.
  rewrite (lor_shifted_low h 22) by lia.
  replace (h * 2 ^ 22 + datacenterId s * 2 ^ 17)
    with ((h * 2 ^ 5 + datacenterId s) * 2 ^ 17) by lia.
  rewrite (lor_shifted_low _ 17) by lia.
  replace ((h * 2 ^ 5 + datacenterId s) * 2 ^ 17 + workerId s * 2 ^ 12)
    with ((h * 2 ^ 10 + datacenterId s * 2 ^ 5 + workerId s) * 2 ^ 12) by lia.
  rewrite (lor_shifted_low _ 12) by lia.
  lia.
Qed.

(** Read as one 64-bit pattern, the identifier is [pack] reduced once. *)
Lemma compose_pack :
  compose t s = Int64.wrap (pack t (datacenterId s) (workerId s) (sequence s)).
Proof.
  rewrite compose_sum.
  rewrite maxWorkerId_eq in Hw. rewrite maxDatacenterId_eq in Hd.
  rewrite sequenceMask_eq in Hq.
  unfold pack. int64_unfold.
  pose proof (Z.div_mod ((t - twepoch) * 2 ^ 22 + 2 ^ 63) (2 ^ 64)) as E1.
  pose proof (Z.mod_pos_bound ((t - twepoch) * 2 ^ 22 + 2 ^ 63) (2 ^ 64)) as B1.
  set (lo := datacenterId s * 2 ^ 17 + workerId s * 2 ^ 12 + sequence s).
  assert (Hlo : 0 <= lo < 2 ^ 22) by (unfold lo; lia).
  replace ((t - twepoch) * 2 ^ 22 + datacenterId s * 2 ^ 17
           + workerId s * 2 ^ 12 + sequence s + 2 ^ 63)
    with (((t - twepoch) * 2 ^ 22 + 2 ^ 63) + lo) by (unfold lo; lia).
  set (x := (t - twepoch) * 2 ^ 22 + 2 ^ 63) in *.
  assert (Hdiv : (x mod 2 ^ 64) mod 2 ^ 22 = 0).
  { replace (x mod 2 ^ 64)
      with (((t - twepoch) + 2 ^ 41 - (x / 2 ^ 64) * 2 ^ 42) * 2 ^ 22)
      by (unfold x in *; lia).
    apply Z.mod_mul. lia. }
  assert (Hx : (x + lo) mod 2 ^ 64 = x mod 2 ^ 64 + lo).
  { symmetry. apply Z.mod_unique with (q := x / 2 ^ 64).
    - left. pose proof (Z.div_mod (x mod 2 ^ 64) (2 ^ 22)). lia.
    - lia. }
  lia.
Qed.

Lemma compose_in_range : Int64.in_range (compose t s).
Proof. rewrite compose_pack. apply wrap_in_range. Qed.

(** The low twelve bits are the sequence. *)
Lemma sequenceOf_compose : sequenceOf (compose t s) = sequence s.
Proof.
  rewrite compose_sum.
  rewrite maxWorkerId_eq in Hw. rewrite maxDatacenterId_eq in Hd.
  rewrite sequenceMask_eq in Hq.
  destruct (wrap_shifted (t - twepoch)) as [h Eh]. rewrite Eh.
  unfold sequenceOf. change sequenceMask with (Z.ones 12).
  rewrite Z.land_ones by lia.
  Z.to_euclidean_division_equations. lia.
Qed.

(** Bits 16-12 are the worker id. *)
Lemma workerIdOf_compose : workerIdOf (compose t s) = workerId s.
Proof.
  rewrite compose_sum.
  rewrite maxWorkerId_eq in Hw. rewrite maxDatacenterId_eq in Hd.
  rewrite sequenceMask_eq in Hq.
  destruct (wrap_shifted (t - twepoch)) as [h Eh]. rewrite Eh.
  unfold workerIdOf. change maxWorkerId with (Z.ones 5).
  change workerIdShift with 12.
  rewrite Z.land_ones, Z.shiftr_div_pow2 by lia.
  Z.to_euclidean_division_equations. lia.
Qed.

(** Bits 21-17 are the datacenter id. *)
Lemma datacenterIdOf_compose : datacenterIdOf (compose t s) = datacenterId s.
Proof.
  rewrite compose_sum.
  rewrite maxWorkerId_eq in Hw. rewrite maxDatacenterId_eq in Hd.
  rewrite sequenceMask_eq in Hq.
  destruct (wrap_shifted (t - twepoch)) as [h Eh]. rewrite Eh.
  unfold datacenterIdOf. change maxDatacenterId with (Z.ones 5).
  change datacenterIdShift with 17.
  rewrite Z.land_ones, Z.shiftr_div_pow2 by lia.
  Z.to_euclidean_division_equations. lia.
Qed.

End Compose.

(** ** The sequence counter *)

(** Masking the wrapped successor is the successor modulo 4096, whatever
    64-bit value the counter holds. *)
Lemma sequence_step q :
  Int64.and (Int64.add q 1) sequenceMask = (q + 1) mod 4096.
Proof.
  unfold Int64.and, Int64.add. change sequenceMask with (Z.ones 12).
  rewrite Z.land_ones by lia. change (2 ^ 12) with 4096.
  int64_unfold.
  replace ((q + 1 + 2 ^ 63) mod 2 ^ 64 - 2 ^ 63)
    with ((q + 1) + (- ((q + 1 + 2 ^ 63) / 2 ^ 64) * 2 ^ 52) * 4096).
  - apply Z.mod_add. lia.
  - pose proof (Z.div_mod (q + 1 + 2 ^ 63) (2 ^ 64)). lia.
Qed.

Lemma sequence_step_bounds q : 0 <= (q + 1) mod 4096 <= sequenceMask.
Proof.
  rewrite sequenceMask_eq.
  pose proof (Z.mod_pos_bound (q + 1) 4096). lia.
Qed.

Lemma sequence_step_succ q :
  0 <= q <= sequenceMask -> (q + 1) mod 4096 <> 0 -> (q + 1) mod 4096 = q + 1.
Proof.
  rewrite sequenceMask_eq. intros Hq Hne.
  destruct (Z.eq_dec q 4095) as [-> | Hn].
  - exfalso. apply Hne. reflexivity.
  - apply Z.mod_small. lia.
Qed.

(** ** Waiting for the next millisecond *)

(** Each reading is examined once: kept if it is past [lastTimestamp],
    dropped otherwise. *)
Lemma tilNextMillis_cons last nanos clk :
  tilNextMillis last (nanos :: clk) =
  if millis nanos <=? last then tilNextMillis last clk
  else Some (millis nanos, clk).
Proof.
  unfold tilNextMillis, timeGen.
  destruct clk as [| nanos' clk']; simpl;
    destruct (millis nanos <=? last); reflexivity.
Qed.

Lemma tilNextMillis_nil last : tilNextMillis last [] = None.
Proof. reflexivity. Qed.

(** The wait ends at the first reading strictly past [lastTimestamp]. *)
Lemma tilNextMillis_first last pre nanos post :
  Forall (fun x => millis x <= last) pre ->
  last < millis nanos ->
  tilNextMillis last (pre ++ nanos :: post) = Some (millis nanos, post).
Proof.
  intros Hpre Hgt. induction Hpre as [| x pre Hx _ IH]; simpl.
  - rewrite tilNextMillis_cons.
    destruct (Z.leb_spec (millis nanos) last); [lia | reflexivity].
  - rewrite tilNextMillis_cons.
    destruct (Z.leb_spec (millis x) last); [exact IH | lia].
Qed.

(** While no reading is past [lastTimestamp] the wait does not end. *)
Lemma tilNextMillis_stuck last clk :
  tilNextMillis last clk = None <-> Forall (fun x => millis x <= last) clk.
Proof.
  induction clk as [| x clk IH].
  - split; [constructor | reflexivity].
  - rewrite tilNextMillis_cons.
    destruct (Z.leb_spec (millis x) last) as [Hle | Hgt]; split; intros H.
    + constructor; [exact Hle | apply IH; exact H].
    + apply IH. inversion H; assumption.
    + discriminate.
    + inversion H; lia.
Qed.

Lemma tilNextMillis_inv last clk t clk' :
  tilNextMillis last clk = Some (t, clk') ->
  exists pre nanos,
    clk = pre ++ nanos :: clk' /\ Forall (fun x => millis x <= last) pre /\
    t = millis nanos /\ last < t.
Proof.
  induction clk as [| x clk IH].
  - discriminate.
  - rewrite tilNextMillis_cons.
    destruct (Z.leb_spec (millis x) last) as [Hle | Hgt]; intros H.
    + destruct (IH H) as (pre & nanos & -> & Hpre & -> & Hlt).
      exists (x :: pre), nanos. repeat split; auto.
    + injection H as <- <-. exists [], x. repeat split; auto.
Qed.

(** ** One call, branch by branch *)

Lemma NextId_nil s : NextId s [] = None.
Proof. reflexivity. Qed.

Lemma NextId_regress s nanos clk :
  millis nanos < lastTimestamp s ->
  NextId s (nanos :: clk) =
  Some (Err (Errorf
               "Clock moved backwards.  Refusing to generate id for %d milliseconds"
               (Int64.sub (lastTimestamp s) (millis nanos))),
        s, clk).
Proof.
  intros H. unfold NextId, timeGen.
  destruct (Z.ltb_spec (millis nanos) (lastTimestamp s)); [reflexivity | lia].
Qed.

Lemma NextId_advance s nanos clk :
  lastTimestamp s < millis nanos ->
  NextId s (nanos :: clk) =
  Some (Ok (compose (millis nanos) (issued s (millis nanos) 0)),
        issued s (millis nanos) 0, clk).
Proof.
  intros H. unfold NextId, timeGen.
  destruct (Z.ltb_spec (millis nanos) (lastTimestamp s)); [lia |].
  destruct (Z.eqb_spec (millis nanos) (lastTimestamp s)); [lia |].
  reflexivity.
Qed.

Lemma NextId_same s nanos clk :
  millis nanos = lastTimestamp s ->
  (sequence s + 1) mod 4096 <> 0 ->
  NextId s (nanos :: clk) =
  Some (Ok (compose (lastTimestamp s)
              (issued s (lastTimestamp s) ((sequence s + 1) mod 4096))),
        issued s (lastTimestamp s) ((sequence s + 1) mod 4096), clk).
Proof.
  intros H Hq. unfold NextId, timeGen. rewrite H.
  rewrite Z.ltb_irrefl, Z.eqb_refl. cbn [sequence set_sequence].
  rewrite sequence_step.
  destruct (Z.eqb_spec ((sequence s + 1) mod 4096) 0); [contradiction |].
  reflexivity.
Qed.

Lemma NextId_rollover s nanos clk :
  millis nanos = lastTimestamp s ->
  (sequence s + 1) mod 4096 = 0 ->
  NextId s (nanos :: clk) =
  match tilNextMillis (lastTimestamp s) clk with
  | None => None
  | Some (timestamp, clk') =>
    Some (Ok (compose timestamp (issued s timestamp 0)),
          issued s timestamp 0, clk')
  end.
Proof.
  intros H Hq. unfold NextId, timeGen. rewrite H.
  rewrite Z.ltb_irrefl, Z.eqb_refl. cbn [sequence set_sequence lastTimestamp].
  rewrite sequence_step, Hq. cbn [Z.eqb].
  destruct (tilNextMillis (lastTimestamp s) clk) as [[timestamp clk'] |];
    reflexivity.
Qed.

Lemma NextId_inv s clk o s' clk' :
  NextId s clk = Some (o, s', clk') ->
  exists nanos clk1, clk = nanos :: clk1 /\ returned s nanos clk1 o s' clk'.
Proof.
  destruct clk as [| nanos clk1]; [discriminate |].
  intros H. exists nanos, clk1. split; [reflexivity |].
  destruct (Z.lt_trichotomy (millis nanos) (lastTimestamp s)) as [Hlt | [Heq | Hgt]].
  - rewrite NextId_regress in H by assumption.
    injection H as <- <- <-. now constructor.
  - destruct (Z.eq_dec ((sequence s + 1) mod 4096) 0) as [Hz | Hnz].
    + rewrite NextId_rollover in H by assumption.
      destruct (tilNextMillis (lastTimestamp s) clk1) as [[timestamp clk2] |] eqn:E;
        [| discriminate].
      injection H as <- <- <-. now constructor.
    + rewrite NextId_same in H by assumption.
      injection H as <- <- <-. now constructor.
  - rewrite NextId_advance in H by assumption.
    injection H as <- <- <-. now constructor.
Qed.

Lemma returned_NextId s nanos clk o s' clk' :
  returned s nanos clk o s' clk' -> NextId s (nanos :: clk) = Some (o, s', clk').
Proof.
  intros [H | H | H Hq | timestamp clk2 H Hq E].
  - now apply NextId_regress.
  - now apply NextId_advance.
  - now apply NextId_same.
  - rewrite NextId_rollover, E by assumption. reflexivity.
Qed.

(** ** What a call preserves *)

Lemma New_valid w d s : New w d = inl s -> valid s.
Proof.
  unfold New, valid.
  destruct (Z.ltb_spec w 0); [discriminate |].
  destruct (Z.gtb_spec w maxWorkerId); [discriminate |].
  destruct (Z.ltb_spec d 0); [discriminate |].
  destruct (Z.gtb_spec d maxDatacenterId); [discriminate |].
  cbn [orb]. intros [= <-].
  cbn [lastTimestamp workerId datacenterId sequence].
  rewrite sequenceMask_eq. unfold maxMillis. lia.
Qed.

Lemma returned_valid s nanos clk o s' clk' :
  valid s -> returned s nanos clk o s' clk' -> valid s'.
Proof.
  intros (Hw & Hd & Hq & Ht) R.
  pose proof (millis_bounds nanos) as Hm.
  destruct R as [H | H | H Hne | timestamp clk2 H Hz E];
    unfold valid; cbn; repeat split; try tauto; try lia;
    try (rewrite sequenceMask_eq; lia);
    try apply sequence_step_bounds.
  - apply tilNextMillis_inv in E. destruct E as (_ & _ & _ & _ & _ & Hlt). lia.
  - apply tilNextMillis_inv in E. destruct E as (_ & x & _ & _ & -> & _).
    apply millis_bounds.
Qed.

Lemma NextId_valid s clk o s' clk' :
  valid s -> NextId s clk = Some (o, s', clk') -> valid s'.
Proof.
  intros V H. apply NextId_inv in H. destruct H as (nanos & clk1 & _ & R).
  eapply returned_valid; eassumption.
Qed.

(** A call that fails leaves the generator as it was; a call that succeeds
    moves the pair strictly up and keeps the identity. *)
Lemma returned_progress s nanos clk o s' clk' :
  valid s -> returned s nanos clk o s' clk' ->
  workerId s' = workerId s /\ datacenterId s' = datacenterId s /\
  match o with
  | Err _ => s' = s
  | Ok id =>
    id = compose (lastTimestamp s') s' /\
    stamp s < stamp s' /\
    ((lastTimestamp s < lastTimestamp s' /\ sequence s' = 0) \/
     (lastTimestamp s' = lastTimestamp s /\ sequence s' = sequence s + 1))
  end.
Proof.
  intros (Hw & Hd & Hq & Ht) R.
  destruct R as [H | H | H Hne | timestamp clk2 H Hz E];
    cbn [lastTimestamp workerId datacenterId sequence issued];
    (split; [reflexivity | split; [reflexivity |]]).
  - reflexivity.
  - split; [reflexivity | split].
    + unfold stamp; cbn. rewrite sequenceMask_eq in Hq. lia.
    + left. split; [exact H | reflexivity].
  - split; [reflexivity | split].
    + unfold stamp; cbn. rewrite sequence_step_succ by assumption. lia.
    + right. split; [reflexivity | now apply sequence_step_succ].
  - apply tilNextMillis_inv in E. destruct E as (_ & _ & _ & _ & _ & Hlt).
    split; [reflexivity | split].
    + unfold stamp; cbn. rewrite sequenceMask_eq in Hq. lia.
    + left. split; [exact Hlt | reflexivity].
Qed.

Lemma NextId_Ok s clk id s' clk' :
  valid s -> NextId s clk = Some (Ok id, s', clk') ->
  valid s' /\
  workerId s' = workerId s /\ datacenterId s' = datacenterId s /\
  id = compose (lastTimestamp s') s' /\
  stamp s < stamp s' /\
  ((lastTimestamp s < lastTimestamp s' /\ sequence s' = 0) \/
   (lastTimestamp s' = lastTimestamp s /\ sequence s' = sequence s + 1)).
Proof.
  intros V H. split; [eapply NextId_valid; eassumption |].
  apply NextId_inv in H. destruct H as (nanos & clk1 & _ & R).
  pose proof (returned_progress _ _ _ _ _ _ V R) as P. cbn in P. tauto.
Qed.

Lemma NextId_Err s clk e s' clk' :
  NextId s clk = Some (Err e, s', clk') -> s' = s.
Proof.
  intros H. apply NextId_inv in H. destruct H as (nanos & clk1 & _ & R).
  inversion R. reflexivity.
Qed.

Lemma steps_invariant s s' :
  valid s -> steps s s' ->
  valid s' /\ workerId s' = workerId s /\ datacenterId s' = datacenterId s /\
  stamp s <= stamp s'.
Proof.
  intros V St. induction St as [s | s s1 s2 clk o clk' St IH H].
  - split; [exact V | split; [reflexivity | split; [reflexivity | lia]]].
  - destruct (IH V) as (V1 & Ew & Ed & Le).
    destruct o as [id | e].
    + destruct (NextId_Ok _ _ _ _ _ V1 H) as (V2 & Ew2 & Ed2 & _ & Lt & _).
      split; [exact V2 | split; [congruence | split; [congruence | lia]]].
    + apply NextId_Err in H. subst s2. auto.
Qed.

(** X7.  Every generator a program can hold is valid: [New] builds a valid
    one and no call, failed or not, breaks the invariant or changes the
    identity: the ids stay the accepted ones in [0, 31], the sequence stays in
    [0, 4095] and [lastTimestamp] stays a non-negative millisecond. *)
Lemma constructed_generators_are_valid w d s0 s :
  New w d = inl s0 -> steps s0 s ->
  valid s /\ workerId s = w /\ datacenterId s = d.
Proof.
  intros HN St.
  destruct (steps_invariant _ _ (New_valid _ _ _ HN) St) as (V & Ew & Ed & _).
  unfold New in HN.
  destruct ((w <? 0) || (w >? maxWorkerId)); [discriminate |].
  destruct ((d <? 0) || (d >? maxDatacenterId)); [discriminate |].
  injection HN as <-. cbn in Ew, Ed. auto.
Qed.

Lemma valid_millis s : valid s -> - maxMillis <= lastTimestamp s <= maxMillis.
Proof. unfold valid, maxMillis. lia. Qed.

(** For a valid generator the order on [stamp] decides the timestamps. *)
Lemma stamp_le_timestamp s s' :
  valid s -> valid s' -> stamp s <= stamp s' ->
  lastTimestamp s <= lastTimestamp s'.
Proof.
  unfold valid, stamp. rewrite sequenceMask_eq. lia.
Qed.

(** * Construction *)

Lemma New_inl w d :
  0 <= w <= 31 -> 0 <= d <= 31 -> New w d = inl (mkSnowflake 0 w d 0).
Proof.
  intros Hw Hd. unfold New.
  rewrite maxWorkerId_eq, maxDatacenterId_eq.
  destruct (Z.ltb_spec w 0); [lia |].
  destruct (Z.gtb_spec w 31); [lia |].
  destruct (Z.ltb_spec d 0); [lia |].
  destruct (Z.gtb_spec d 31); [lia |].
  reflexivity.
Qed.

Lemma New_inr_worker w d :
  w < 0 \/ 31 < w ->
  New w d = inr (Errorf "worker Id can't be greater than %d or less than 0" 31).
Proof.
  intros Hw. unfold New. rewrite maxWorkerId_eq.
  destruct (Z.ltb_spec w 0); [reflexivity |].
  destruct (Z.gtb_spec w 31); [reflexivity | lia].
Qed.

Lemma New_inr_datacenter w d :
  0 <= w <= 31 -> d < 0 \/ 31 < d ->
  New w d = inr (Errorf "datacenter Id can't be greater than %d or less than 0" d).
Proof.
  intros Hw Hd. unfold New. rewrite maxWorkerId_eq, maxDatacenterId_eq.
  destruct (Z.ltb_spec w 0); [lia |].
  destruct (Z.gtb_spec w 31); [lia |].
  destruct (Z.ltb_spec d 0); [reflexivity |].
  destruct (Z.gtb_spec d 31); [reflexivity | lia].
Qed.

(** C6.  [New] returns a generator exactly when both arguments lie in
    [0, 31]; it returns an error, and no generator, exactly when one of them
    is negative or above 31.  The generator returned starts with
    [lastTimestamp = 0] and [sequence = 0] and holds the two arguments. *)
Theorem New_accepts_exactly_5_bit_ids (w d : Z) :
  ((exists s, New w d = inl s) <-> (0 <= w <= 31 /\ 0 <= d <= 31)) /\
  ((exists e, New w d = inr e) <-> (w < 0 \/ 31 < w \/ d < 0 \/ 31 < d)) /\
  (forall s, New w d = inl s -> s = mkSnowflake 0 w d 0).
Proof.
  assert (C : (0 <= w <= 31 /\ 0 <= d <= 31) \/ (w < 0 \/ 31 < w) \/
              (0 <= w <= 31 /\ (d < 0 \/ 31 < d))) by lia.
  destruct C as [[Hw Hd] | [Hw | [Hw Hd]]].
  - rewrite (New_inl w d Hw Hd). split; [| split].
    + split; [intros _; split; assumption | intros _; eexists; reflexivity].
    + split; [intros [e He]; discriminate | lia].
    + intros s [= <-]. reflexivity.
  - rewrite (New_inr_worker w d Hw). split; [| split].
    + split; [intros [s Hs]; discriminate | lia].
    + split; [lia | intros _; eexists; reflexivity].
    + intros s Hs. discriminate.
  - rewrite (New_inr_datacenter w d Hw Hd). split; [| split].
    + split; [intros [s Hs]; discriminate | lia].
    + split; [lia | intros _; eexists; reflexivity].
    + intros s Hs. discriminate.
Qed.

(** C9.  The message of the worker-id failure names the bound 31, but the
    message of the datacenter-id failure is formatted with the rejected
    argument instead of [maxDatacenterId]: for 32 it reads "greater than 32",
    for -1 "greater than -1". *)
Theorem New_datacenter_error_prints_the_argument :
  (exists e, New 32 0 = inr e /\
     Error e = "worker Id can't be greater than 31 or less than 0"%string) /\
  (exists e, New 0 32 = inr e /\
     Error e = "datacenter Id can't be greater than 32 or less than 0"%string) /\
  (exists e, New 0 (-1) = inr e /\
     Error e = "datacenter Id can't be greater than -1 or less than 0"%string).
Proof.
  split; [| split]; eexists; (split; [reflexivity |]); reflexivity.
Qed.

(** Whatever out-of-range datacenter id is rejected, it is the number the
    message shows. *)
Lemma New_datacenter_error_message w d :
  0 <= w <= 31 -> d < 0 \/ 31 < d ->
  exists e, New w d = inr e /\
    Error e =
    ("datacenter Id can't be greater than " ++ fmt_d d ++ " or less than 0")%string.
Proof.
  intros Hw Hd. rewrite (New_inr_datacenter w d Hw Hd).
  eexists. split; reflexivity.
Qed.

(** * Composition of the identifier *)

Lemma lor_fields_pack t d w q :
  0 <= d <= 31 -> 0 <= w <= 31 -> 0 <= q <= 4095 ->
  Z.lor (Z.lor (Z.lor (Z.shiftl (t - twepoch) 22) (Z.shiftl d 17))
               (Z.shiftl w 12)) q
  = pack t d w q.
Proof.
  intros Hd Hw Hq. unfold pack.
  rewrite !Z.shiftl_mul_pow2 by lia.
  rewrite (lor_shifted_low _ 22) by lia.
  replace ((t - twepoch) * 2 ^ 22 + d * 2 ^ 17)
    with (((t - twepoch) * 2 ^ 5 + d) * 2 ^ 17) by lia.
  rewrite (lor_shifted_low _ 17) by lia.
  replace (((t - twepoch) * 2 ^ 5 + d) * 2 ^ 17 + w * 2 ^ 12)
    with (((t - twepoch) * 2 ^ 10 + d * 2 ^ 5 + w) * 2 ^ 12) by lia.
  rewrite (lor_shifted_low _ 12) by lia.
  lia.
Qed.

(** C2.  A successful call returns
    [((timestamp - twepoch) << 22) | (datacenterId << 17) | (workerId << 12) | sequence]
    computed on [int64], where [timestamp] and [sequence] are the values the
    call leaves in the generator and [twepoch] is 1577808000000; for a valid
    generator this is the same expression on unbounded integers reduced once
    to 64 bits. *)
Theorem NextId_returns_the_packed_fields s clk id s' clk' :
  NextId s clk = Some (Ok id, s', clk') ->
  twepoch = 1577808000000 /\
  datacenterId s' = datacenterId s /\ workerId s' = workerId s /\
  id = Int64.or
         (Int64.or
            (Int64.or (Int64.shl (Int64.sub (lastTimestamp s') twepoch) 22)
                      (Int64.shl (datacenterId s) 17))
            (Int64.shl (workerId s) 12))
         (sequence s') /\
  (valid s ->
   id = Int64.wrap
          (Z.lor (Z.lor (Z.lor (Z.shiftl (lastTimestamp s' - 1577808000000) 22)
                               (Z.shiftl (datacenterId s) 17))
                        (Z.shiftl (workerId s) 12))
                 (sequence s'))).
Proof.
  intros H. split; [reflexivity |].
  assert (E : datacenterId s' = datacenterId s /\ workerId s' = workerId s /\
              id = compose (lastTimestamp s') s').
  { pose proof H as H'. apply NextId_inv in H'.
    destruct H' as (nanos & clk1 & _ & R). inversion R; subst; cbn; auto. }
  destruct E as (Ed & Ew & Ei).
  split; [exact Ed | split; [exact Ew | split]].
  - rewrite Ei. unfold compose. rewrite Ed, Ew. reflexivity.
  - intros V. pose proof (NextId_valid _ _ _ _ _ V H) as V'.
    destruct V' as (Hw & Hd & Hq & Ht).
    rewrite Ei, compose_pack; try assumption; [| unfold maxMillis in *; lia].
    rewrite maxWorkerId_eq in Hw. rewrite maxDatacenterId_eq in Hd.
    rewrite sequenceMask_eq in Hq.
    rewrite <- Ed, <- Ew.
    change 1577808000000 with twepoch.
    rewrite lor_fields_pack by assumption. reflexivity.
Qed.

Ltac valid_by_computation :=
  vm_compute; repeat split; intro; discriminate.

Lemma NextId_returns_the_packed_fields_witness :
  let s := mkSnowflake 0 3 7 0 in
  let s' := mkSnowflake 1600000000000 3 7 0 in
  NextId s [nanosOf 1600000000000] = Some (Ok 93079994368929792, s', []) /\
  93079994368929792 = Int64.wrap
         (Z.lor (Z.lor (Z.lor (Z.shiftl (lastTimestamp s' - 1577808000000) 22)
                              (Z.shiftl (datacenterId s) 17))
                       (Z.shiftl (workerId s) 12))
                (sequence s')).
Proof.
  intros s s'.
  assert (E : NextId s [nanosOf 1600000000000] = Some (Ok 93079994368929792, s', []))
    by reflexivity.
  assert (V : valid s) by valid_by_computation.
  split; [exact E |].
  exact (proj2 (proj2 (proj2 (proj2
     (NextId_returns_the_packed_fields s [nanosOf 1600000000000] _ s' [] E)))) V).
Defined.

(** * The clock and sequence state machine *)

(** C3.  When the reading equals [lastTimestamp], the sequence becomes
    [(sequence + 1) mod 4096].  If that is not 0 the call returns at once
    with the unchanged timestamp.  If it is 0 the call re-reads the clock:
    readings not past [lastTimestamp] are dropped, the first reading strictly
    past it is the timestamp of the call, and as long as no such reading
    comes the call does not return. *)
Theorem same_millisecond_increments_then_waits s nanos clk :
  millis nanos = lastTimestamp s ->
  Int64.and (Int64.add (sequence s) 1) sequenceMask = (sequence s + 1) mod 4096 /\
  ((sequence s + 1) mod 4096 <> 0 ->
   NextId s (nanos :: clk) =
   Some (Ok (compose (lastTimestamp s)
               (issued s (lastTimestamp s) ((sequence s + 1) mod 4096))),
         issued s (lastTimestamp s) ((sequence s + 1) mod 4096), clk)) /\
  ((sequence s + 1) mod 4096 = 0 ->
   (forall pre later post,
       clk = pre ++ later :: post ->
       Forall (fun x => millis x <= lastTimestamp s) pre ->
       lastTimestamp s < millis later ->
       NextId s (nanos :: clk) =
       Some (Ok (compose (millis later) (issued s (millis later) 0)),
             issued s (millis later) 0, post)) /\
   (Forall (fun x => millis x <= lastTimestamp s) clk ->
    NextId s (nanos :: clk) = None) /\
   (forall o s' clk',
       NextId s (nanos :: clk) = Some (o, s', clk') ->
       lastTimestamp s < lastTimestamp s' /\ sequence s' = 0)).
Proof.
  intros H. split; [apply sequence_step | split].
  - intros Hne. now apply NextId_same.
  - intros Hz. rewrite (NextId_rollover s nanos clk H Hz). split; [| split].
    + intros pre later post -> Hpre Hlt.
      rewrite (tilNextMillis_first _ _ _ _ Hpre Hlt). reflexivity.
    + intros Hall. apply tilNextMillis_stuck in Hall. rewrite Hall. reflexivity.
    + intros o s' clk'.
      destruct (tilNextMillis (lastTimestamp s) clk) as [[t clk2] |] eqn:E;
        [| discriminate].
      intros [= <- <- <-]. apply tilNextMillis_inv in E.
      destruct E as (_ & _ & _ & _ & _ & Hlt). cbn. auto.
Qed.

Lemma same_millisecond_increments_then_waits_witness :
  let s := mkSnowflake 1600000000000 3 7 4095 in
  let clk := [nanosOf 1600000000000; nanosOf 1599999999999; nanosOf 1600000000002] in
  NextId s (nanosOf 1600000000000 :: clk) =
  Some (Ok (compose 1600000000002 (issued s 1600000000002 0)),
        issued s 1600000000002 0, []) /\
  sequence (issued s 1600000000002 0) = 0.
Proof.
  intros s clk.
  assert (H : millis (nanosOf 1600000000000) = lastTimestamp s) by reflexivity.
  pose proof (same_millisecond_increments_then_waits s (nanosOf 1600000000000) clk H)
    as (_ & _ & W).
  destruct (W eq_refl) as (First & _ & _).
  split; [| reflexivity].
  apply (First [nanosOf 1600000000000; nanosOf 1599999999999]
               (nanosOf 1600000000002) []).
  - reflexivity.
  - repeat constructor; vm_compute; discriminate.
  - reflexivity.
Defined.

(** C8.  A reading strictly past [lastTimestamp] resets the sequence to 0,
    and every successful call, on either branch, stores in [lastTimestamp]
    the very timestamp it composed the identifier from: the reading itself,
    or after a rollover the reading that ended the wait. *)
Theorem later_reading_resets_and_timestamp_is_recorded s nanos clk :
  (lastTimestamp s < millis nanos ->
   NextId s (nanos :: clk) =
   Some (Ok (compose (millis nanos) (issued s (millis nanos) 0)),
         issued s (millis nanos) 0, clk)) /\
  (forall id s' clk',
      NextId s (nanos :: clk) = Some (Ok id, s', clk') ->
      exists timestamp,
        (timestamp = millis nanos \/
         tilNextMillis (lastTimestamp s) clk = Some (timestamp, clk')) /\
        lastTimestamp s' = timestamp /\
        id = compose timestamp s').
Proof.
  split.
  - apply NextId_advance.
  - intros id s' clk' H. apply NextId_inv in H.
    destruct H as (nanos' & clk1 & [= <- <-] & R).
    inversion R; subst.
    + exists (millis nanos). cbn. auto.
    + exists (lastTimestamp s). cbn. auto.
    + exists timestamp. cbn. auto.
Qed.

(** * Clock regression *)

(** C4.  A reading strictly before [lastTimestamp] makes the call fail; the
    error carries [lastTimestamp - timestamp], the generator is returned as
    it was, and the call that follows behaves as if the failed one had not
    happened: with a reading past [lastTimestamp] it succeeds. *)
Theorem regression_is_refused_without_mutation s nanos clk :
  valid s ->
  millis nanos < lastTimestamp s ->
  exists e,
    NextId s (nanos :: clk) = Some (Err e, s, clk) /\
    arg e = lastTimestamp s - millis nanos /\
    Error e =
    ("Clock moved backwards.  Refusing to generate id for "
       ++ fmt_d (lastTimestamp s - millis nanos) ++ " milliseconds")%string /\
    (forall o s' clk',
        NextId s clk = Some (o, s', clk') ->
        calls 2 s (nanos :: clk) = Some ([Err e; o], s', clk')) /\
    (forall nanos' clk',
        clk = nanos' :: clk' ->
        lastTimestamp s < millis nanos' ->
        calls 2 s (nanos :: clk) =
        Some ([Err e; Ok (compose (millis nanos') (issued s (millis nanos') 0))],
              issued s (millis nanos') 0, clk')).
Proof.
  intros V Hlt.
  assert (D : Int64.sub (lastTimestamp s) (millis nanos)
              = lastTimestamp s - millis nanos).
  { apply wrap_small. pose proof (millis_bounds nanos) as B.
    apply valid_millis in V. unfold maxMillis in *. int64_unfold. lia. }
  eexists. rewrite (NextId_regress s nanos clk Hlt).
  split; [reflexivity |]. cbn [arg]. rewrite D.
  split; [reflexivity |]. split; [reflexivity |].
  assert (Again : forall o s' clk',
             NextId s clk = Some (o, s', clk') ->
             calls 2 s (nanos :: clk)
             = Some ([Err (Errorf
                "Clock moved backwards.  Refusing to generate id for %d milliseconds"
                (lastTimestamp s - millis nanos)); o], s', clk')).
  { intros o s' clk' H. cbn [calls].
    rewrite (NextId_regress s nanos clk Hlt), D, H. reflexivity. }
  split; [exact Again |].
  intros nanos' clk' -> Hgt. apply Again. now apply NextId_advance.
Qed.

Lemma regression_is_refused_without_mutation_witness :
  let s := mkSnowflake 1600000000000 3 7 9 in
  exists e,
    NextId s [nanosOf 1599999999958; nanosOf 1600000000001]
    = Some (Err e, s, [nanosOf 1600000000001]) /\
    Error e =
    "Clock moved backwards.  Refusing to generate id for 42 milliseconds"%string /\
    calls 2 s [nanosOf 1599999999958; nanosOf 1600000000001]
    = Some ([Err e; Ok 93079994373124096], issued s 1600000000001 0, []).
Proof.
  intros s.
  assert (V : valid s) by valid_by_computation.
  assert (Hlt : millis (nanosOf 1599999999958) < lastTimestamp s) by reflexivity.
  destruct (regression_is_refused_without_mutation s (nanosOf 1599999999958)
              [nanosOf 1600000000001] V Hlt) as (e & E & _ & M & _ & Next).
  exists e. split; [exact E |]. split; [exact M |].
  exact (Next (nanosOf 1600000000001) [] eq_refl eq_refl).
Defined.

(** * Decoding the node identity *)

Lemma New_inl_inv w d s :
  New w d = inl s -> workerId s = w /\ datacenterId s = d.
Proof.
  unfold New.
  destruct ((w <? 0) || (w >? maxWorkerId)); [discriminate |].
  destruct ((d <? 0) || (d >? maxDatacenterId)); [discriminate |].
  intros [= <-]. split; reflexivity.
Qed.

Lemma valid_compose_fields s :
  valid s ->
  workerIdOf (compose (lastTimestamp s) s) = workerId s /\
  datacenterIdOf (compose (lastTimestamp s) s) = datacenterId s /\
  sequenceOf (compose (lastTimestamp s) s) = sequence s.
Proof.
  intros V. pose proof (valid_millis s V) as Ht.
  destruct V as (Hw & Hd & Hq & _).
  split; [| split].
  - now apply workerIdOf_compose.
  - now apply datacenterIdOf_compose.
  - now apply sequenceOf_compose.
Qed.

(** C7.  Whatever calls came before and whatever the clock read, bits 16-12
    of an issued identifier are the [workerId] and bits 21-17 the
    [datacenterId] that [New] accepted. *)
Theorem issued_id_decodes_to_constructed_identity w d s0 s clk id s' clk' :
  New w d = inl s0 ->
  steps s0 s ->
  NextId s clk = Some (Ok id, s', clk') ->
  workerIdOf id = w /\ datacenterIdOf id = d /\
  workerIdOf id = Z.land (Z.shiftr id 12) 31 /\
  datacenterIdOf id = Z.land (Z.shiftr id 17) 31.
Proof.
  intros HN St H.
  pose proof (New_valid _ _ _ HN) as V0.
  destruct (New_inl_inv _ _ _ HN) as [Ew0 Ed0].
  destruct (steps_invariant _ _ V0 St) as (V & Ew & Ed & _).
  destruct (NextId_Ok _ _ _ _ _ V H) as (V' & Ew' & Ed' & Ei & _).
  destruct (valid_compose_fields s' V') as (Dw & Dd & _).
  rewrite <- Ei in Dw, Dd.
  split; [congruence | split; [congruence | split; reflexivity]].
Qed.

Lemma issued_id_decodes_to_constructed_identity_witness :
  exists s0 s1 s2,
    New 3 7 = inl s0 /\
    NextId s0 [nanosOf 1600000000000; nanosOf 1600000000000]
    = Some (Ok 93079994368929792, s1, [nanosOf 1600000000000]) /\
    NextId s1 [nanosOf 1600000000000] = Some (Ok 93079994368929793, s2, []) /\
    workerIdOf 93079994368929793 = 3 /\ datacenterIdOf 93079994368929793 = 7.
Proof.
  exists (mkSnowflake 0 3 7 0), (mkSnowflake 1600000000000 3 7 0),
    (mkSnowflake 1600000000000 3 7 1).
  assert (HN : New 3 7 = inl (mkSnowflake 0 3 7 0)) by reflexivity.
  assert (H1 : NextId (mkSnowflake 0 3 7 0)
                 [nanosOf 1600000000000; nanosOf 1600000000000]
               = Some (Ok 93079994368929792, mkSnowflake 1600000000000 3 7 0,
                       [nanosOf 1600000000000])) by reflexivity.
  assert (H2 : NextId (mkSnowflake 1600000000000 3 7 0) [nanosOf 1600000000000]
               = Some (Ok 93079994368929793, mkSnowflake 1600000000000 3 7 1, []))
    by reflexivity.
  split; [exact HN |]. split; [exact H1 |]. split; [exact H2 |].
  destruct (issued_id_decodes_to_constructed_identity 3 7 _ _ _ _ _ _ HN
              (steps_call _ _ _ _ _ _ (steps_refl _) H1) H2) as (Dw & Dd & _).
  split; [exact Dw | exact Dd].
Defined.

(** * Order of the identifiers *)

(** Inside the window of 2^42 milliseconds that starts at the epoch, the
    64 bits of an identifier read unsigned are [pack] itself. *)
Lemma unsigned_compose s :
  valid s ->
  twepoch <= lastTimestamp s < twepoch + 2 ^ 42 ->
  Int64.unsigned (compose (lastTimestamp s) s)
  = pack (lastTimestamp s) (datacenterId s) (workerId s) (sequence s).
Proof.
  intros V Ht. pose proof (valid_millis s V) as Hm.
  destruct V as (Hw & Hd & Hq & _).
  rewrite compose_pack by assumption.
  rewrite wrap_congr. unfold Int64.unsigned, Int64.modulus.
  rewrite maxWorkerId_eq in Hw. rewrite maxDatacenterId_eq in Hd.
  rewrite sequenceMask_eq in Hq.
  apply Z.mod_small. unfold pack. lia.
Qed.

(** C1, amended.  Take two successful calls on one generator, [a] before
    [b], with any calls in between, failed ones included.  If the timestamp
    of [a] is not before the epoch and the timestamp of [b] is less than 2^42
    milliseconds after it, then [b >= a] as unsigned 64-bit integers and
    [b <> a]. *)
Theorem later_id_is_greater_within_epoch_window
        s clk a s1 clk1 s2 clk2 b s3 clk3 :
  valid s ->
  NextId s clk = Some (Ok a, s1, clk1) ->
  steps s1 s2 ->
  NextId s2 clk2 = Some (Ok b, s3, clk3) ->
  twepoch <= lastTimestamp s1 ->
  lastTimestamp s3 < twepoch + 2 ^ 42 ->
  Int64.unsigned a <= Int64.unsigned b /\ b <> a.
Proof.
  intros V Ha St Hb Lo Hi.
  destruct (NextId_Ok _ _ _ _ _ V Ha) as (V1 & _ & _ & Ea & _).
  destruct (steps_invariant _ _ V1 St) as (V2 & Ew2 & Ed2 & Le12).
  destruct (NextId_Ok _ _ _ _ _ V2 Hb) as (V3 & Ew3 & Ed3 & Eb & Lt23 & _).
  assert (Le13 : lastTimestamp s1 <= lastTimestamp s3)
    by (apply stamp_le_timestamp; try assumption; lia).
  assert (Ua := unsigned_compose s1 V1 ltac:(lia)).
  assert (Ub := unsigned_compose s3 V3 ltac:(lia)).
  rewrite <- Ea in Ua. rewrite <- Eb in Ub.
  assert (Lt : Int64.unsigned a < Int64.unsigned b).
  { rewrite Ua, Ub. rewrite Ew3, Ed3, Ew2, Ed2.
    destruct V1 as (_ & _ & Hq1 & _). destruct V3 as (_ & _ & Hq3 & _).
    rewrite sequenceMask_eq in Hq1, Hq3.
    unfold pack, stamp in *. lia. }
  split; [lia |]. intros ->. lia.
Qed.

Lemma later_id_is_greater_within_epoch_window_witness :
  Int64.unsigned 93079994368929792 <= Int64.unsigned 93079994373124096 /\
  93079994373124096 <> 93079994368929792.
Proof.
  assert (V : valid (mkSnowflake 0 3 7 0)) by valid_by_computation.
  assert (Ha : NextId (mkSnowflake 0 3 7 0)
                 [nanosOf 1600000000000; nanosOf 1500000000000;
                  nanosOf 1600000000001]
               = Some (Ok 93079994368929792, mkSnowflake 1600000000000 3 7 0,
                       [nanosOf 1500000000000; nanosOf 1600000000001]))
    by reflexivity.
  assert (Hf : NextId (mkSnowflake 1600000000000 3 7 0)
                 [nanosOf 1500000000000; nanosOf 1600000000001]
               = Some (Err (Errorf
                  "Clock moved backwards.  Refusing to generate id for %d milliseconds"
                  100000000000),
                       mkSnowflake 1600000000000 3 7 0, [nanosOf 1600000000001]))
    by reflexivity.
  assert (Hb : NextId (mkSnowflake 1600000000000 3 7 0) [nanosOf 1600000000001]
               = Some (Ok 93079994373124096, mkSnowflake 1600000000001 3 7 0, []))
    by reflexivity.
  apply (later_id_is_greater_within_epoch_window _ _ _ _ _ _ _ _ _ _
           V Ha (steps_call _ _ _ _ _ _ (steps_refl _) Hf) Hb).
  - vm_compute. discriminate.
  - reflexivity.
Defined.

(** C1 as stated fails when the clock crosses the epoch: the identifier
    issued one millisecond before the epoch is negative, hence larger as an
    unsigned integer than the one issued at the epoch, although the clock
    only moved forward. *)
Lemma ids_across_the_epoch_decrease_unsigned :
  exists s0 s1 s2 a b,
    New 0 0 = inl s0 /\
    NextId s0 [nanosOf (twepoch - 1); nanosOf twepoch]
    = Some (Ok a, s1, [nanosOf twepoch]) /\
    NextId s1 [nanosOf twepoch] = Some (Ok b, s2, []) /\
    millis (nanosOf (twepoch - 1)) < millis (nanosOf twepoch) /\
    a = -4194304 /\ b = 0 /\
    Int64.unsigned a = 18446744073705357312 /\
    Int64.unsigned b = 0 /\
    Int64.unsigned b < Int64.unsigned a.
Proof.
  exists (mkSnowflake 0 0 0 0), (mkSnowflake (twepoch - 1) 0 0 0),
    (mkSnowflake twepoch 0 0 0), (-4194304), 0.
  repeat split.
Qed.

(** * A full millisecond *)

Lemma wrap_shifted_quotient x :
  exists k, Int64.wrap (x * 2 ^ 22) = (x - k * 2 ^ 42) * 2 ^ 22.
Proof.
  exists ((x * 2 ^ 22 + 2 ^ 63) / 2 ^ 64).
  int64_unfold.
  pose proof (Z.div_mod (x * 2 ^ 22 + 2 ^ 63) (2 ^ 64)) as E.
  lia.
Qed.

(** Bits 62-22 hold the milliseconds since the epoch modulo 2^41. *)
Lemma timestampOf_compose s :
  valid s ->
  timestampOf (compose (lastTimestamp s) s)
  = (lastTimestamp s - twepoch) mod 2 ^ 41.
Proof.
  intros V. pose proof (valid_millis s V) as Hm.
  destruct V as (Hw & Hd & Hq & _).
  rewrite compose_sum by assumption.
  rewrite maxWorkerId_eq in Hw. rewrite maxDatacenterId_eq in Hd.
  rewrite sequenceMask_eq in Hq.
  destruct (wrap_shifted_quotient (lastTimestamp s - twepoch)) as [k Ek].
  rewrite Ek. unfold timestampOf. change timestampLeftShift with 22.
  rewrite Z.land_ones, Z.shiftr_div_pow2 by lia.
  set (x := lastTimestamp s - twepoch).
  set (lo := datacenterId s * 2 ^ 17 + workerId s * 2 ^ 12 + sequence s).
  replace ((x - k * 2 ^ 42) * 2 ^ 22 + datacenterId s * 2 ^ 17
           + workerId s * 2 ^ 12 + sequence s)
    with ((x - k * 2 ^ 42) * 2 ^ 22 + lo) by (unfold lo; lia).
  rewrite Z.div_add_l by lia.
  rewrite (Z.div_small lo) by (unfold lo; lia).
  rewrite Z.add_0_r.
  replace (x - k * 2 ^ 42) with (x + (- (2 * k)) * 2 ^ 41) by lia.
  apply Z.mod_add. lia.
Qed.

Lemma issued_self s : issued s (lastTimestamp s) (sequence s) = s.
Proof. destruct s; reflexivity. Qed.

(** Calls whose readings stay in the current millisecond hand out the next
    sequence numbers one by one, as long as the counter has room. *)
Lemma calls_same_millisecond n :
  forall s burst rest,
    0 <= sequence s ->
    sequence s + Z.of_nat n <= 4095 ->
    List.length burst = n ->
    Forall (fun x => millis x = lastTimestamp s) burst ->
    calls n s (burst ++ rest) =
    Some (map (fun k => Ok (compose (lastTimestamp s)
                              (issued s (lastTimestamp s)
                                 (sequence s + 1 + Z.of_nat k))))
              (seq 0 n),
          issued s (lastTimestamp s) (sequence s + Z.of_nat n), rest).
Proof.
  induction n as [| n IH]; intros s burst rest Hq0 Hq Hlen Hall.
  - destruct burst; [| discriminate]. cbn.
    rewrite Z.add_0_r, issued_self. reflexivity.
  - destruct burst as [| x burst]; [discriminate |].
    injection Hlen as Hlen. inversion Hall as [| ? ? Hx Hall']; subst.
    assert (Hstep : (sequence s + 1) mod 4096 = sequence s + 1)
      by (apply Z.mod_small; lia).
    cbn [calls app].
    rewrite (NextId_same s x (burst ++ rest) Hx) by lia.
    rewrite Hstep.
    set (s1 := issued s (lastTimestamp s) (sequence s + 1)).
    rewrite (IH s1 burst rest); try reflexivity; cbn [s1 issued sequence lastTimestamp];
      try lia; try assumption.
    cbn [seq map]. rewrite <- seq_shift, map_map.
    replace (sequence s + Z.of_nat (S (List.length burst)))
      with (sequence s + 1 + Z.of_nat (List.length burst)) by lia.
    replace (sequence s + 1 + Z.of_nat 0) with (sequence s + 1) by lia.
    rewrite (map_ext
               (fun k => Ok (compose (lastTimestamp s)
                               (issued s (lastTimestamp s)
                                  (sequence s + 1 + Z.of_nat (S k)))))
               (fun k => Ok (compose (lastTimestamp s)
                               (issued s1 (lastTimestamp s)
                                  (sequence s + 1 + 1 + Z.of_nat k))))).
    + reflexivity.
    + intros k.
      replace (sequence s + 1 + Z.of_nat (S k))
        with (sequence s + 1 + 1 + Z.of_nat k) by lia.
      reflexivity.
Qed.

Lemma calls_S n s clk :
  calls (S n) s clk =
  match NextId s clk with
  | None => None
  | Some (o, s', clk') =>
    match calls n s' clk' with
    | None => None
    | Some (os, s'', clk'') => Some (o :: os, s'', clk'')
    end
  end.
Proof. reflexivity. Qed.

(** Calls that open a fresh millisecond [t] and stay in it number their
    identifiers from 0. *)
Lemma calls_fresh_millisecond n s t burst rest :
  lastTimestamp s < t ->
  Z.of_nat (S n) <= 4096 ->
  List.length burst = S n ->
  Forall (fun x => millis x = t) burst ->
  calls (S n) s (burst ++ rest) =
  Some (map (fun k => Ok (compose t (issued s t (Z.of_nat k)))) (seq 0 (S n)),
        issued s t (Z.of_nat n), rest).
Proof.
  intros Hlt Hn Hlen Hall.
  destruct burst as [| x burst]; [discriminate |].
  injection Hlen as Hlen. inversion Hall as [| ? ? Hx Hall']; subst.
  rewrite calls_S. cbn [app].
  rewrite (NextId_advance s x (burst ++ rest) Hlt).
  set (s1 := issued s (millis x) 0).
  pose proof (calls_same_millisecond (List.length burst) s1 burst rest) as E.
  cbn [s1 issued sequence lastTimestamp] in E.
  specialize (E ltac:(lia) ltac:(lia) eq_refl Hall').
  rewrite E. clear E.
  cbn [seq map]. rewrite <- seq_shift, map_map.
  assert (Emap :
            map (fun k => Ok (compose (millis x)
                                (issued s1 (millis x) (0 + 1 + Z.of_nat k))))
                (seq 0 (List.length burst))
            = map (fun k => Ok (compose (millis x)
                                  (issued s (millis x) (Z.of_nat (S k)))))
                  (seq 0 (List.length burst))).
  { apply map_ext. intros k.
    replace (Z.of_nat (S k)) with (0 + 1 + Z.of_nat k) by lia.
    reflexivity. }
  rewrite Emap.
  replace (0 + Z.of_nat (List.length burst))
    with (Z.of_nat (List.length burst)) by lia.
  reflexivity.
Qed.

Lemma nth_map_seq (f : nat -> Z) n k d :
  (k < n)%nat -> nth k (map f (seq 0 n)) d = f k.
Proof.
  intros Hk.
  rewrite (nth_indep _ d (f O)) by (rewrite length_map, length_seq; exact Hk).
  rewrite map_nth, seq_nth by exact Hk. reflexivity.
Qed.

Lemma issued_valid s t q :
  valid s -> 0 <= t <= maxMillis -> 0 <= q <= 4095 -> valid (issued s t q).
Proof.
  intros (Hw & Hd & _ & _) Ht Hq. unfold valid.
  cbn [issued lastTimestamp workerId datacenterId sequence].
  rewrite sequenceMask_eq. tauto.
Qed.

(** C5, amended.  Let 4096 consecutive calls read the same millisecond [t],
    the first of them opening it ([lastTimestamp < t]).  All succeed; the
    k-th identifier has sequence field k, for k = 0 .. 4095 in that order,
    and all have the same timestamp field.  The 4097th call, when it
    returns an identifier, has used a timestamp of at least [t + 1] (it does
    return one as soon as the clock shows a later millisecond), and the
    timestamp field (bits 62-22) of that identifier is at least 1 greater
    than that of the first 4096 provided both timestamps lie in the 41-bit
    span that starts at the epoch. *)
Theorem full_millisecond_then_next s t burst rest :
  valid s ->
  lastTimestamp s < t ->
  List.length burst = 4096%nat ->
  Forall (fun x => millis x = t) burst ->
  let ids := map (fun k => compose t (issued s t (Z.of_nat k))) (seq 0 4096) in
  let s' := issued s t 4095 in
  calls 4096 s (burst ++ rest) = Some (map Ok ids, s', rest) /\
  (forall k, (k < 4096)%nat ->
     sequenceOf (nth k ids 0) = Z.of_nat k /\
     timestampOf (nth k ids 0) = timestampOf (nth 0 ids 0)) /\
  (forall b s'' rest',
     NextId s' rest = Some (Ok b, s'', rest') ->
     t + 1 <= lastTimestamp s'' /\
     (twepoch <= t -> lastTimestamp s'' < twepoch + 2 ^ 41 ->
      timestampOf (nth 0 ids 0) + 1 <= timestampOf b)) /\
  (forall pre later post,
     rest = pre ++ later :: post ->
     Forall (fun x => millis x = t) pre ->
     t < millis later ->
     exists b, NextId s' rest = Some (Ok b, issued s (millis later) 0, post)).
Proof.
  intros V Hlt Hlen Hall ids s'.
  assert (Ht : 0 <= t <= maxMillis).
  { destruct burst as [| x burst]; [discriminate |].
    inversion Hall as [| ? ? Hx _]; subst.
    pose proof (millis_bounds x). destruct V as (_ & _ & _ & Hl). lia. }
  assert (Vk : forall k, (k < 4096)%nat -> valid (issued s t (Z.of_nat k))).
  { intros k Hk. apply issued_valid; [exact V | exact Ht | lia]. }
  assert (Tk : forall k, (k < 4096)%nat ->
             timestampOf (nth k ids 0) = (t - twepoch) mod 2 ^ 41).
  { intros k Hk. unfold ids. rewrite nth_map_seq by exact Hk.
    apply (timestampOf_compose (issued s t (Z.of_nat k))). now apply Vk. }
  assert (V' : valid s') by (apply issued_valid; [exact V | exact Ht | lia]).
  split; [| split; [| split]].
  - unfold ids. rewrite map_map.
    apply (calls_fresh_millisecond 4095 s t burst rest Hlt);
      [reflexivity | exact Hlen | exact Hall].
  - intros k Hk. split.
    + unfold ids. rewrite nth_map_seq by exact Hk.
      destruct (valid_compose_fields _ (Vk k Hk)) as (_ & _ & Hs). exact Hs.
    + rewrite (Tk k Hk), (Tk O) by lia. reflexivity.
  - intros b s'' rest' H.
    destruct (NextId_Ok _ _ _ _ _ V' H) as (V'' & _ & _ & Eb & _ & Cases).
    assert (Hnext : t + 1 <= lastTimestamp s'').
    { destruct Cases as [[Hgt _] | [_ Hseq]].
      - cbn in Hgt. lia.
      - destruct V'' as (_ & _ & Hq & _). rewrite sequenceMask_eq in Hq.
        cbn in Hseq. lia. }
    split; [exact Hnext |]. intros Lo Hi.
    rewrite (Tk O) by lia. rewrite Eb, timestampOf_compose by exact V''.
    rewrite !Z.mod_small by lia. lia.
  - intros pre later post -> Hpre Hgt.
    destruct pre as [| p pre].
    + eexists. apply (NextId_advance s' later post). exact Hgt.
    + inversion Hpre as [| ? ? Hp Hpre']; subst.
      eexists. cbn [app].
      rewrite (NextId_rollover s' p (pre ++ later :: post)); [| reflexivity ..].
      cbn [s' issued lastTimestamp].
      rewrite tilNextMillis_first; [reflexivity | | exact Hgt].
      eapply Forall_impl; [| exact Hpre']. cbn. intros a Ha. rewrite Ha. lia.
Qed.

Lemma full_millisecond_then_next_witness :
  exists b,
    calls 4096 (mkSnowflake 0 3 7 0)
      (repeat (nanosOf 1600000000000) 4096
       ++ [nanosOf 1600000000000; nanosOf 1600000000001])
    = Some (map Ok
              (map (fun k => compose 1600000000000
                               (issued (mkSnowflake 0 3 7 0) 1600000000000
                                  (Z.of_nat k)))
                   (seq 0 4096)),
            mkSnowflake 1600000000000 3 7 4095,
            [nanosOf 1600000000000; nanosOf 1600000000001]) /\
    NextId (mkSnowflake 1600000000000 3 7 4095)
      [nanosOf 1600000000000; nanosOf 1600000000001]
    = Some (Ok b, mkSnowflake 1600000000001 3 7 0, []).
Proof.
  assert (V : valid (mkSnowflake 0 3 7 0)) by valid_by_computation.
  assert (Hall : Forall (fun x => millis x = 1600000000000)
                   (repeat (nanosOf 1600000000000) 4096)).
  { apply Forall_forall. intros x Hx. apply repeat_spec in Hx. subst x.
    reflexivity. }
  destruct (full_millisecond_then_next (mkSnowflake 0 3 7 0) 1600000000000
              (repeat (nanosOf 1600000000000) 4096)
              [nanosOf 1600000000000; nanosOf 1600000000001]
              V eq_refl (repeat_length _ 4096) Hall)
    as (Run & _ & _ & Next).
  destruct (Next [nanosOf 1600000000000] (nanosOf 1600000000001) [] eq_refl)
    as [b Hb].
  - repeat constructor.
  - reflexivity.
  - exists b. split; [exact Run | exact Hb].
Defined.

(** C5 as stated fails at the end of the 41-bit span: after 4096 identifiers
    in the millisecond [twepoch + 2^41 - 1], whose timestamp field is
    2^41 - 1, the 4097th call uses the next millisecond, the shifted
    timestamp overflows into bit 63 and the timestamp field of the
    identifier is 0. *)
Lemma timestamp_field_wraps_after_41_bits :
  New 0 0 = inl (mkSnowflake 0 0 0 0) /\
  nth_outcome 0 (calls 4097 (mkSnowflake 0 0 0 0) clock_at_41_bit_boundary)
  = Some (Ok 9223372036850581504) /\
  nth_outcome 4095 (calls 4097 (mkSnowflake 0 0 0 0) clock_at_41_bit_boundary)
  = Some (Ok 9223372036850585599) /\
  nth_outcome 4096 (calls 4097 (mkSnowflake 0 0 0 0) clock_at_41_bit_boundary)
  = Some (Ok (-9223372036854775808)) /\
  timestampOf 9223372036850581504 = 2199023255551 /\
  timestampOf 9223372036850585599 = 2199023255551 /\
  timestampOf (-9223372036854775808) = 0 /\
  timestampOf (-9223372036854775808) < timestampOf 9223372036850581504 + 1.
Proof.
  vm_compute. repeat split.
Qed.

(** * Readings before the epoch *)

Lemma compose_before_epoch s :
  valid s -> lastTimestamp s < twepoch -> compose (lastTimestamp s) s < 0.
Proof.
  intros V Hlt. pose proof (valid_millis s V) as Hm.
  destruct V as (Hw & Hd & Hq & Ht).
  rewrite compose_sum by assumption.
  rewrite maxWorkerId_eq in Hw. rewrite maxDatacenterId_eq in Hd.
  rewrite sequenceMask_eq in Hq. unfold twepoch in *.
  rewrite wrap_small by (int64_unfold; lia).
  lia.
Qed.

(** C10, amended.  For a valid generator and a reading [t] with
    [lastTimestamp <= t < twepoch] the call raises no error, since nothing
    compares the clock with the epoch.  Unless the sequence rolls over
    ([t = lastTimestamp] and [sequence = 4095]) it returns at once an
    identifier built from [t], which is negative.  In every case an
    identifier whose timestamp is before the epoch is negative. *)
Theorem reading_before_epoch_yields_negative_id s nanos clk :
  valid s ->
  lastTimestamp s <= millis nanos ->
  millis nanos < twepoch ->
  (forall e s' clk', NextId s (nanos :: clk) <> Some (Err e, s', clk')) /\
  (lastTimestamp s < millis nanos \/ (sequence s + 1) mod 4096 <> 0 ->
   exists id s',
     NextId s (nanos :: clk) = Some (Ok id, s', clk) /\
     lastTimestamp s' = millis nanos /\ id < 0) /\
  (forall id s' clk',
     NextId s (nanos :: clk) = Some (Ok id, s', clk') ->
     lastTimestamp s' < twepoch -> id < 0).
Proof.
  intros V Hle Hlt.
  assert (Neg : forall id s' clk',
             NextId s (nanos :: clk) = Some (Ok id, s', clk') ->
             lastTimestamp s' < twepoch -> id < 0).
  { intros id s' clk' H Hs'.
    destruct (NextId_Ok _ _ _ _ _ V H) as (V' & _ & _ & -> & _).
    now apply compose_before_epoch. }
  split; [| split; [| exact Neg]].
  - intros e s' clk' H. apply NextId_inv in H.
    destruct H as (n & c & [= <- <-] & R). inversion R; subst. lia.
  - intros Hcase.
    assert (R : exists q, returned s nanos clk
                  (Ok (compose (millis nanos) (issued s (millis nanos) q)))
                  (issued s (millis nanos) q) clk).
    { destruct (Z.eq_dec (millis nanos) (lastTimestamp s)) as [Heq | Hne].
      - exists ((sequence s + 1) mod 4096). rewrite Heq.
        apply ret_same; [exact Heq |]. destruct Hcase; [lia | assumption].
      - exists 0. apply ret_advance. lia. }
    destruct R as [q R]. apply returned_NextId in R.
    eexists. eexists. split; [exact R |]. split; [reflexivity |].
    apply (Neg _ _ _ R). exact Hlt.
Qed.

Lemma reading_before_epoch_yields_negative_id_witness :
  exists id s',
    NextId (mkSnowflake 0 3 7 0) [nanosOf 1500000000000]
    = Some (Ok id, s', []) /\
    lastTimestamp s' = 1500000000000 /\ id < 0.
Proof.
  assert (V : valid (mkSnowflake 0 3 7 0)) by valid_by_computation.
  assert (Hle : lastTimestamp (mkSnowflake 0 3 7 0)
                <= millis (nanosOf 1500000000000))
    by (vm_compute; discriminate).
  assert (Hlt : millis (nanosOf 1500000000000) < twepoch) by reflexivity.
  destruct (reading_before_epoch_yields_negative_id (mkSnowflake 0 3 7 0)
              (nanosOf 1500000000000) [] V Hle Hlt) as (_ & Now & _).
  destruct (Now (or_introl eq_refl)) as (id & s' & H & Ht & Hneg).
  exists id, s'. split; [exact H |]. split; [exact Ht | exact Hneg].
Defined.

(** C10 as stated fails when the call rolls the sequence over: the 4097th
    call reads millisecond 5, which is [lastTimestamp] and before the epoch,
    then waits and uses the next later reading, here after the epoch; the
    identifier it returns is positive. *)
Lemma rollover_before_epoch_can_return_positive_id :
  New 0 0 = inl (mkSnowflake 0 0 0 0) /\
  state_after (calls 4096 (mkSnowflake 0 0 0 0) clock_rolling_over_before_epoch)
  = Some (mkSnowflake 5 0 0 4095, [nanosOf 5; nanosOf (twepoch + 1)]) /\
  lastTimestamp (mkSnowflake 5 0 0 4095) <= millis (nanosOf 5) /\
  millis (nanosOf 5) < twepoch /\
  NextId (mkSnowflake 5 0 0 4095) [nanosOf 5; nanosOf (twepoch + 1)]
  = Some (Ok 4194304, mkSnowflake (twepoch + 1) 0 0 0, []) /\
  0 < 4194304.
Proof.
  vm_compute. repeat split; discriminate.
Qed.

(** * Further properties of the code *)

(** ** The time source *)

(** X1.  [timeGen] keeps the order of the clock: of two [int64] nanosecond
    readings, the later never yields the smaller millisecond. *)
Theorem millis_keeps_the_order n1 n2 :
  Int64.in_range n1 -> Int64.in_range n2 -> n1 <= n2 ->
  millis n1 <= millis n2.
Proof.
  intros H1 H2 Hle. unfold millis, Int64.quo.
  rewrite (wrap_small n1), (wrap_small n2) by assumption.
  assert (B : forall n, Int64.in_range n -> Int64.in_range (Z.quot n 1000000)).
  { intros n Hn. int64_unfold. Z.quot_rem_to_equations. lia. }
  rewrite !wrap_small by (apply B; assumption).
  apply Z.quot_le_mono; lia.
Qed.

Lemma millis_keeps_the_order_witness :
  millis 1599999999999999999 <= millis 1600000000000000000.
Proof.
  apply millis_keeps_the_order.
  - vm_compute. split; intro; discriminate.
  - vm_compute. split; intro; discriminate.
  - vm_compute. intro; discriminate.
Defined.

(** X2.  The division in [timeGen] truncates toward zero: a reading at or
    after 1970 falls in the millisecond that contains it, a reading before
    1970 is rounded up, so that the last millisecond before 1970 and the
    first one after it both read as millisecond 0. *)
Theorem millis_truncates_toward_zero nanos :
  Int64.in_range nanos ->
  (0 <= nanos ->
   millis nanos * 1000000 <= nanos < (millis nanos + 1) * 1000000) /\
  (nanos <= 0 ->
   (millis nanos - 1) * 1000000 < nanos <= millis nanos * 1000000) /\
  (-1000000 < nanos < 1000000 -> millis nanos = 0).
Proof.
  intros Hn. unfold millis, Int64.quo.
  rewrite (wrap_small nanos) by assumption.
  assert (B : Int64.in_range (Z.quot nanos 1000000)).
  { int64_unfold. Z.quot_rem_to_equations. lia. }
  rewrite wrap_small by exact B.
  repeat split; intros; Z.quot_rem_to_equations; lia.
Qed.

Lemma millis_truncates_toward_zero_witness :
  millis (-1) = 0 /\ millis (-999999) = 0 /\ millis 999999 = 0.
Proof.
  assert (R : forall n, Int64.in_range n -> -1000000 < n < 1000000 ->
                        millis n = 0).
  { intros n Hn. exact (proj2 (proj2 (millis_truncates_toward_zero n Hn))). }
  repeat split; apply R;
    (vm_compute; split; first [reflexivity | intro; discriminate]).
Defined.

(** X3.  [tilNextMillis] returns exactly when some reading is strictly past
    [lastTimestamp]; it then returns the first such reading, having consumed
    the readings up to it and no more.  It spins on exactly when every
    reading is at or before [lastTimestamp]. *)
Theorem tilNextMillis_returns_first_later_reading last clk :
  (forall t clk',
      tilNextMillis last clk = Some (t, clk') <->
      exists pre nanos,
        clk = pre ++ nanos :: clk' /\
        Forall (fun x => millis x <= last) pre /\
        t = millis nanos /\ last < t) /\
  (tilNextMillis last clk = None <-> Forall (fun x => millis x <= last) clk).
Proof.
  split; [| apply tilNextMillis_stuck].
  intros t clk'. split.
  - apply tilNextMillis_inv.
  - intros (pre & nanos & -> & Hpre & -> & Hlt).
    now apply tilNextMillis_first.
Qed.

(** ** When a call fails, and when it does not return *)

(** X4.  The only error [NextId] returns is the clock-regression error, and
    it returns it exactly when the reading is strictly before
    [lastTimestamp]; the sequence and the readings after the first play no
    part. *)
Theorem NextId_fails_exactly_on_regression s nanos clk :
  (exists e s' clk', NextId s (nanos :: clk) = Some (Err e, s', clk')) <->
  millis nanos < lastTimestamp s.
Proof.
  split.
  - intros (e & s' & clk' & H). apply NextId_inv in H.
    destruct H as (n & c & [= <- <-] & R). inversion R; subst. assumption.
  - intros Hlt. rewrite (NextId_regress s nanos clk Hlt).
    eexists. eexists. eexists. reflexivity.
Qed.

(** X5.  Once it has a reading, [NextId] fails to return in one situation
    only: the reading equals [lastTimestamp], the sequence rolls over to 0,
    and no later reading is strictly past [lastTimestamp]. *)
Theorem NextId_blocks_exactly_on_stalled_rollover s nanos clk :
  NextId s (nanos :: clk) = None <->
  (millis nanos = lastTimestamp s /\
   (sequence s + 1) mod 4096 = 0 /\
   Forall (fun x => millis x <= lastTimestamp s) clk).
Proof.
  split.
  - intros H.
    destruct (Z.lt_trichotomy (millis nanos) (lastTimestamp s))
      as [Hlt | [Heq | Hgt]].
    + rewrite NextId_regress in H by assumption. discriminate.
    + destruct (Z.eq_dec ((sequence s + 1) mod 4096) 0) as [Hz | Hnz].
      * rewrite NextId_rollover in H by assumption.
        destruct (tilNextMillis (lastTimestamp s) clk) as [[t c] |] eqn:E;
          [discriminate |].
        apply tilNextMillis_stuck in E. auto.
      * rewrite NextId_same in H by assumption. discriminate.
    + rewrite NextId_advance in H by assumption. discriminate.
  - intros (Heq & Hz & Hall). rewrite NextId_rollover by assumption.
    apply tilNextMillis_stuck in Hall. rewrite Hall. reflexivity.
Qed.

(** X6.  A call reads the clock once, except on a rollover: the readings it
    leaves are those after the first one, unless the reading equals
    [lastTimestamp] and the sequence wraps to 0, in which case it consumes at
    least one more. *)
Theorem NextId_reads_the_clock_once_unless_rollover s nanos clk o s' clk' :
  NextId s (nanos :: clk) = Some (o, s', clk') ->
  (~ (millis nanos = lastTimestamp s /\ (sequence s + 1) mod 4096 = 0) ->
   clk' = clk) /\
  (millis nanos = lastTimestamp s /\ (sequence s + 1) mod 4096 = 0 ->
   exists waited, clk = waited ++ clk' /\ waited <> []).
Proof.
  intros H. apply NextId_inv in H.
  destruct H as (n & c & [= <- <-] & R).
  destruct R as [Hlt | Hgt | Heq Hnz | t clk2 Heq Hz E].
  - split; [reflexivity | intros [C _]; lia].
  - split; [reflexivity | intros [C _]; lia].
  - split; [reflexivity | intros [_ C]; contradiction].
  - split; [intros C; exfalso; apply C; split; assumption |].
    intros _. apply tilNextMillis_inv in E.
    destruct E as (pre & x & -> & _ & _ & _).
    exists (pre ++ [x]). split.
    + rewrite <- app_assoc. reflexivity.
    + destruct pre; discriminate.
Qed.

Lemma NextId_reads_the_clock_once_unless_rollover_witness :
  exists waited,
    [nanosOf 7; nanosOf 6; nanosOf 9; nanosOf 9] = waited ++ [nanosOf 9] /\
    waited <> [].
Proof.
  assert (H : NextId (mkSnowflake 7 3 7 4095)
                (nanosOf 7 :: [nanosOf 7; nanosOf 6; nanosOf 9; nanosOf 9])
              = Some (Ok (compose 9 (mkSnowflake 9 3 7 0)),
                      mkSnowflake 9 3 7 0, [nanosOf 9])) by reflexivity.
  exact (proj2 (NextId_reads_the_clock_once_unless_rollover _ _ _ _ _ _ H)
           (conj eq_refl eq_refl)).
Defined.

(** ** What every generator keeps *)

(** X8.  [lastTimestamp] never goes back: whatever calls are made, on
    whatever readings, failed ones included, a generator's [lastTimestamp]
    is at least what it was, and it is never negative. *)
Theorem lastTimestamp_never_decreases s s' :
  valid s -> steps s s' ->
  lastTimestamp s <= lastTimestamp s' /\ 0 <= lastTimestamp s'.
Proof.
  intros V St.
  destruct (steps_invariant _ _ V St) as (V' & _ & _ & Le).
  split.
  - now apply stamp_le_timestamp.
  - destruct V' as (_ & _ & _ & Ht). lia.
Qed.

Lemma lastTimestamp_never_decreases_witness :
  lastTimestamp (mkSnowflake 1600000000000 3 7 0)
  <= lastTimestamp (mkSnowflake 1600000000000 3 7 1) /\
  0 <= lastTimestamp (mkSnowflake 1600000000000 3 7 1).
Proof.
  assert (V : valid (mkSnowflake 1600000000000 3 7 0)) by valid_by_computation.
  assert (H1 : NextId (mkSnowflake 1600000000000 3 7 0) [nanosOf 1500000000000]
               = Some (Err (Errorf
                  "Clock moved backwards.  Refusing to generate id for %d milliseconds"
                  100000000000),
                       mkSnowflake 1600000000000 3 7 0, [])) by reflexivity.
  assert (H2 : NextId (mkSnowflake 1600000000000 3 7 0) [nanosOf 1600000000000]
               = Some (Ok 93079994368929793, mkSnowflake 1600000000000 3 7 1, []))
    by reflexivity.
  exact (lastTimestamp_never_decreases _ _ V
           (steps_call _ _ _ _ _ _
              (steps_call _ _ _ _ _ _ (steps_refl _) H1) H2)).
Defined.

(** X9.  Successive identifiers of one generator are strictly ordered by
    (timestamp, sequence), with no condition on the clock: of two successful
    calls, the later one has the greater timestamp, or the same timestamp
    and a greater sequence field. *)
Theorem timestamp_sequence_pairs_strictly_increase
        s clk a s1 clk1 s2 clk2 b s3 clk3 :
  valid s ->
  NextId s clk = Some (Ok a, s1, clk1) ->
  steps s1 s2 ->
  NextId s2 clk2 = Some (Ok b, s3, clk3) ->
  a = compose (lastTimestamp s1) s1 /\ b = compose (lastTimestamp s3) s3 /\
  (lastTimestamp s1 < lastTimestamp s3 \/
   (lastTimestamp s1 = lastTimestamp s3 /\ sequenceOf a < sequenceOf b)).
Proof.
  intros V Ha St Hb.
  destruct (NextId_Ok _ _ _ _ _ V Ha) as (V1 & _ & _ & Ea & _).
  destruct (steps_invariant _ _ V1 St) as (V2 & _ & _ & Le12).
  destruct (NextId_Ok _ _ _ _ _ V2 Hb) as (V3 & _ & _ & Eb & Lt23 & _).
  destruct (valid_compose_fields s1 V1) as (_ & _ & Sa).
  destruct (valid_compose_fields s3 V3) as (_ & _ & Sb).
  split; [exact Ea | split; [exact Eb |]].
  rewrite Ea, Eb, Sa, Sb.
  destruct V1 as (_ & _ & Hq1 & _). destruct V3 as (_ & _ & Hq3 & _).
  rewrite sequenceMask_eq in Hq1, Hq3. unfold stamp in *. lia.
Qed.

Lemma timestamp_sequence_pairs_strictly_increase_witness :
  lastTimestamp (mkSnowflake (twepoch - 1) 0 0 0)
  < lastTimestamp (mkSnowflake twepoch 0 0 0) \/
  (lastTimestamp (mkSnowflake (twepoch - 1) 0 0 0)
   = lastTimestamp (mkSnowflake twepoch 0 0 0) /\
   sequenceOf (-4194304) < sequenceOf 0).
Proof.
  assert (V : valid (mkSnowflake 0 0 0 0)) by valid_by_computation.
  assert (Ha : NextId (mkSnowflake 0 0 0 0) [nanosOf (twepoch - 1); nanosOf twepoch]
               = Some (Ok (-4194304), mkSnowflake (twepoch - 1) 0 0 0,
                       [nanosOf twepoch])) by reflexivity.
  assert (Hb : NextId (mkSnowflake (twepoch - 1) 0 0 0) [nanosOf twepoch]
               = Some (Ok 0, mkSnowflake twepoch 0 0 0, [])) by reflexivity.
  exact (proj2 (proj2 (timestamp_sequence_pairs_strictly_increase
                         _ _ _ _ _ _ _ _ _ _ V Ha (steps_refl _) Hb))).
Defined.

(** ** Inside the 41-bit span *)

Lemma compose_in_span s :
  valid s ->
  twepoch <= lastTimestamp s < twepoch + 2 ^ 41 ->
  compose (lastTimestamp s) s
  = pack (lastTimestamp s) (datacenterId s) (workerId s) (sequence s) /\
  0 <= compose (lastTimestamp s) s <= Int64.max_int.
Proof.
  intros V Ht. pose proof (valid_millis s V) as Hm.
  destruct V as (Hw & Hd & Hq & _).
  rewrite compose_pack by assumption.
  rewrite maxWorkerId_eq in Hw. rewrite maxDatacenterId_eq in Hd.
  rewrite sequenceMask_eq in Hq.
  assert (R : 0 <= pack (lastTimestamp s) (datacenterId s) (workerId s)
                     (sequence s) <= Int64.max_int)
    by (unfold pack; int64_unfold; lia).
  rewrite wrap_small by (int64_unfold; lia).
  split; [reflexivity | exact R].
Qed.

(** X10.  While the timestamp is within 2^41 milliseconds after the epoch,
    the identifier is non-negative (bit 63 is 0), it is the plain sum
    [(timestamp - twepoch) * 2^22 + datacenterId * 2^17 + workerId * 2^12 +
    sequence], and its bits 62-22 give back the timestamp; the low twelve
    bits give back the sequence at any time. *)
Theorem id_decodes_to_timestamp_and_sequence s clk id s' clk' :
  valid s ->
  NextId s clk = Some (Ok id, s', clk') ->
  sequenceOf id = sequence s' /\
  (twepoch <= lastTimestamp s' < twepoch + 2 ^ 41 ->
   0 <= id <= Int64.max_int /\
   id = (lastTimestamp s' - twepoch) * 2 ^ 22 + datacenterId s * 2 ^ 17
        + workerId s * 2 ^ 12 + sequence s' /\
   timestampOf id + twepoch = lastTimestamp s').
Proof.
  intros V H.
  destruct (NextId_Ok _ _ _ _ _ V H) as (V' & Ew & Ed & Ei & _).
  destruct (valid_compose_fields s' V') as (_ & _ & Sq).
  split; [rewrite Ei; exact Sq |].
  intros Ht. destruct (compose_in_span s' V' Ht) as (Ep & Rg).
  rewrite <- Ei in Ep, Rg.
  split; [exact Rg | split].
  - rewrite Ep, Ew, Ed. reflexivity.
  - rewrite Ei, timestampOf_compose by exact V'.
    rewrite Z.mod_small by lia. lia.
Qed.

Lemma id_decodes_to_timestamp_and_sequence_witness :
  sequenceOf 93079994368929793 = 1 /\
  timestampOf 93079994368929793 + twepoch = 1600000000000.
Proof.
  assert (V : valid (mkSnowflake 1600000000000 3 7 0)) by valid_by_computation.
  assert (H : NextId (mkSnowflake 1600000000000 3 7 0) [nanosOf 1600000000000]
              = Some (Ok 93079994368929793, mkSnowflake 1600000000000 3 7 1, []))
    by reflexivity.
  destruct (id_decodes_to_timestamp_and_sequence _ _ _ _ _ V H) as (Sq & Span).
  split; [exact Sq |].
  refine (proj2 (proj2 (Span _))).
  split; [vm_compute; intro; discriminate | reflexivity].
Defined.

(** X11.  Within that span identifiers also grow as signed integers, the
    way Go compares [int64]: of two successful calls on one generator the
    later identifier is strictly greater, and both are non-negative. *)
Theorem later_id_is_greater_as_int64_in_span
        s clk a s1 clk1 s2 clk2 b s3 clk3 :
  valid s ->
  NextId s clk = Some (Ok a, s1, clk1) ->
  steps s1 s2 ->
  NextId s2 clk2 = Some (Ok b, s3, clk3) ->
  twepoch <= lastTimestamp s1 ->
  lastTimestamp s3 < twepoch + 2 ^ 41 ->
  0 <= a /\ a < b.
Proof.
  intros V Ha St Hb Lo Hi.
  destruct (NextId_Ok _ _ _ _ _ V Ha) as (V1 & _ & _ & Ea & _).
  destruct (steps_invariant _ _ V1 St) as (V2 & Ew2 & Ed2 & Le12).
  destruct (NextId_Ok _ _ _ _ _ V2 Hb) as (V3 & Ew3 & Ed3 & Eb & Lt23 & _).
  assert (Le13 : lastTimestamp s1 <= lastTimestamp s3)
    by (apply stamp_le_timestamp; try assumption; lia).
  destruct (compose_in_span s1 V1 ltac:(lia)) as (Pa & Ra).
  destruct (compose_in_span s3 V3 ltac:(lia)) as (Pb & Rb).
  rewrite <- Ea in Pa, Ra. rewrite <- Eb in Pb, Rb.
  split; [lia |].
  rewrite Pa, Pb, Ew3, Ed3, Ew2, Ed2.
  destruct V1 as (_ & _ & Hq1 & _). destruct V3 as (_ & _ & Hq3 & _).
  rewrite sequenceMask_eq in Hq1, Hq3.
  unfold pack, stamp in *. lia.
Qed.

Lemma later_id_is_greater_as_int64_in_span_witness :
  0 <= 93079994368929792 /\ 93079994368929792 < 93079994368929793.
Proof.
  assert (V : valid (mkSnowflake 0 3 7 0)) by valid_by_computation.
  assert (Ha : NextId (mkSnowflake 0 3 7 0)
                 [nanosOf 1600000000000; nanosOf 1600000000000]
               = Some (Ok 93079994368929792, mkSnowflake 1600000000000 3 7 0,
                       [nanosOf 1600000000000])) by reflexivity.
  assert (Hb : NextId (mkSnowflake 1600000000000 3 7 0) [nanosOf 1600000000000]
               = Some (Ok 93079994368929793, mkSnowflake 1600000000000 3 7 1, []))
    by reflexivity.
  apply (later_id_is_greater_as_int64_in_span _ _ _ _ _ _ _ _ _ _
           V Ha (steps_refl _) Hb).
  - vm_compute. intro; discriminate.
  - reflexivity.
Defined.

(** ** Several generators *)

(** X12.  Generators built with different (workerId, datacenterId) pairs
    never issue the same identifier, whatever their clocks read and however
    many calls each has served. *)
Theorem different_nodes_never_collide
        w1 d1 g1 s1 clk1 a s1' clk1' w2 d2 g2 s2 clk2 b s2' clk2' :
  New w1 d1 = inl g1 -> steps g1 s1 ->
  NextId s1 clk1 = Some (Ok a, s1', clk1') ->
  New w2 d2 = inl g2 -> steps g2 s2 ->
  NextId s2 clk2 = Some (Ok b, s2', clk2') ->
  w1 <> w2 \/ d1 <> d2 ->
  a <> b.
Proof.
  intros N1 St1 H1 N2 St2 H2 Hne Eab.
  assert (D : forall w d g s clk id s' clk',
             New w d = inl g -> steps g s ->
             NextId s clk = Some (Ok id, s', clk') ->
             workerIdOf id = w /\ datacenterIdOf id = d).
  { intros w d g s clk id s' clk' HN St H.
    destruct (New_inl_inv _ _ _ HN) as [Ew0 Ed0].
    destruct (steps_invariant _ _ (New_valid _ _ _ HN) St) as (V & Ew & Ed & _).
    destruct (NextId_Ok _ _ _ _ _ V H) as (V' & Ew' & Ed' & Ei & _).
    destruct (valid_compose_fields s' V') as (Dw & Dd & _).
    rewrite <- Ei in Dw, Dd. split; congruence. }
  destruct (D _ _ _ _ _ _ _ _ N1 St1 H1) as [Wa Da].
  destruct (D _ _ _ _ _ _ _ _ N2 St2 H2) as [Wb Db].
  subst b. destruct Hne as [Hw | Hd]; congruence.
Qed.

Lemma different_nodes_never_collide_witness :
  datacenterIdOf 93079994368929792 = 7 /\
  datacenterIdOf 93079994369978368 = 15 /\
  93079994368929792 <> 93079994369978368.
Proof.
  split; [reflexivity | split; [reflexivity |]].
  assert (N1 : New 3 7 = inl (mkSnowflake 0 3 7 0)) by reflexivity.
  assert (N2 : New 3 15 = inl (mkSnowflake 0 3 15 0)) by reflexivity.
  assert (H1 : NextId (mkSnowflake 0 3 7 0) [nanosOf 1600000000000]
               = Some (Ok 93079994368929792, mkSnowflake 1600000000000 3 7 0, []))
    by reflexivity.
  assert (H2 : NextId (mkSnowflake 0 3 15 0) [nanosOf 1600000000000]
               = Some (Ok 93079994369978368, mkSnowflake 1600000000000 3 15 0, []))
    by reflexivity.
  apply (different_nodes_never_collide _ _ _ _ _ _ _ _ _ _ _ _ _ _ _ _
           N1 (steps_refl _) H1 N2 (steps_refl _) H2).
  right. vm_compute. discriminate.
Defined.

(** ** Runs *)

Lemma sorted_app_inv (R : Z -> Z -> Prop) pre x post :
  StronglySorted R (pre ++ x :: post) ->
  StronglySorted R post /\ Forall (R x) post.
Proof.
  induction pre as [| p pre IH]; cbn [app]; intros H.
  - apply StronglySorted_inv in H. exact H.
  - apply StronglySorted_inv in H. apply IH. exact (proj1 H).
Qed.

(** One call under a clock that never goes back and is not behind the
    generator: it succeeds, and the same holds for the next call. *)
Lemma NextId_nondecreasing s clk o s1 clk1 :
  nondecreasing clk ->
  Forall (fun x => lastTimestamp s <= millis x) clk ->
  NextId s clk = Some (o, s1, clk1) ->
  succeeded o /\ nondecreasing clk1 /\
  Forall (fun x => lastTimestamp s1 <= millis x) clk1.
Proof.
  intros Hs Hall H. apply NextId_inv in H.
  destruct H as (nanos & c & -> & R).
  apply StronglySorted_inv in Hs. destruct Hs as [Hc Hhead].
  pose proof (Forall_inv Hall) as H0. pose proof (Forall_inv_tail Hall) as Ht.
  cbn beta in H0.
  destruct R as [Hlt | Hgt | Heq Hnz | t clk2 Heq Hz E].
  - lia.
  - split; [exact I | split; [exact Hc | exact Hhead]].
  - split; [exact I | split; [exact Hc | exact Ht]].
  - apply tilNextMillis_inv in E. destruct E as (pre & x & -> & _ & -> & _).
    destruct (sorted_app_inv _ _ _ _ Hc) as [Hpost Hx].
    split; [exact I | split; [exact Hpost | exact Hx]].
Qed.

Lemma calls_nondecreasing n :
  forall s clk os s' clk',
    nondecreasing clk ->
    Forall (fun x => lastTimestamp s <= millis x) clk ->
    calls n s clk = Some (os, s', clk') ->
    Forall succeeded os /\ nondecreasing clk' /\
    Forall (fun x => lastTimestamp s' <= millis x) clk'.
Proof.
  induction n as [| n IH]; intros s clk os s' clk' Hs Hall H.
  - injection H as <- <- <-. auto.
  - rewrite calls_S in H.
    destruct (NextId s clk) as [[[o s1] clk1] |] eqn:E; [| discriminate].
    destruct (calls n s1 clk1) as [[[os1 s2] clk2] |] eqn:E2; [| discriminate].
    injection H as <- <- <-.
    destruct (NextId_nondecreasing _ _ _ _ _ Hs Hall E) as (Ho & Hs1 & Hall1).
    destruct (IH _ _ _ _ _ Hs1 Hall1 E2) as (Hos & Hs2 & Hall2).
    split; [constructor; assumption | split; assumption].
Qed.

(** X13.  Under a clock whose millisecond never goes back and that is not
    behind [lastTimestamp] to begin with, no call of a run returns an error:
    every outcome is an identifier, however the calls fall into
    milliseconds and however often the sequence rolls over. *)
Theorem steady_clock_never_fails n s clk os s' clk' :
  nondecreasing clk ->
  Forall (fun x => lastTimestamp s <= millis x) clk ->
  calls n s clk = Some (os, s', clk') ->
  Forall succeeded os /\ List.length os = n.
Proof.
  intros Hs Hall H. split.
  - exact (proj1 (calls_nondecreasing n _ _ _ _ _ Hs Hall H)).
  - clear Hs Hall. revert s clk os s' clk' H.
    induction n as [| n IH]; intros s clk os s' clk' H.
    + injection H as <- <- <-. reflexivity.
    + rewrite calls_S in H.
      destruct (NextId s clk) as [[[o s1] clk1] |]; [| discriminate].
      destruct (calls n s1 clk1) as [[[os1 s2] clk2] |] eqn:E2; [| discriminate].
      injection H as <- <- <-. cbn. f_equal. eapply IH. exact E2.
Qed.

Lemma steady_clock_never_fails_witness :
  Forall succeeded [Ok 0; Ok 1; Ok 4194304] /\
  List.length [Ok 0; Ok 1; Ok 4194304] = 3%nat.
Proof.
  apply (steady_clock_never_fails 3 (mkSnowflake 0 0 0 0)
           [nanosOf twepoch; nanosOf twepoch; nanosOf (twepoch + 1)]
           _ (mkSnowflake (twepoch + 1) 0 0 0) []).
  - repeat constructor; vm_compute; discriminate.
  - repeat constructor; vm_compute; discriminate.
  - reflexivity.
Defined.

(** X14.  A generator does not recover by itself: as long as the readings
    stay before [lastTimestamp], every call fails, each error carries the
    distance of its own reading to the same [lastTimestamp], and the
    generator is left as it was. *)
Theorem lagging_clock_keeps_failing s burst rest :
  valid s ->
  Forall (fun x => millis x < lastTimestamp s) burst ->
  calls (List.length burst) s (burst ++ rest) =
  Some (map (fun x =>
               Err (Errorf
                 "Clock moved backwards.  Refusing to generate id for %d milliseconds"
                 (lastTimestamp s - millis x)))
            burst,
        s, rest).
Proof.
  intros V Hall. induction Hall as [| x burst Hx _ IH].
  - reflexivity.
  - cbn [List.length app map]. rewrite calls_S.
    rewrite (NextId_regress s x (burst ++ rest) Hx), IH.
    assert (D : Int64.sub (lastTimestamp s) (millis x)
                = lastTimestamp s - millis x).
    { apply wrap_small. pose proof (millis_bounds x) as B.
      apply valid_millis in V. unfold maxMillis in *. int64_unfold. lia. }
    rewrite D. reflexivity.
Qed.

Lemma lagging_clock_keeps_failing_witness :
  calls 2 (mkSnowflake 1600000000000 3 7 9)
    [nanosOf 1599999999958; nanosOf 1599999999999; nanosOf 1600000000000]
  = Some ([Err (Errorf
             "Clock moved backwards.  Refusing to generate id for %d milliseconds"
             42);
           Err (Errorf
             "Clock moved backwards.  Refusing to generate id for %d milliseconds"
             1)],
          mkSnowflake 1600000000000 3 7 9, [nanosOf 1600000000000]).
Proof.
  assert (V : valid (mkSnowflake 1600000000000 3 7 9)) by valid_by_computation.
  apply (lagging_clock_keeps_failing (mkSnowflake 1600000000000 3 7 9)
           [nanosOf 1599999999958; nanosOf 1599999999999]
           [nanosOf 1600000000000] V).
  repeat constructor.
Defined.

(** ** A fresh generator *)

(** X15.  The first call on a generator fresh from [New] never waits, since
    [lastTimestamp] starts at 0: a clock before 1970 is refused as a
    regression, a clock in millisecond 0 counts as "same millisecond" and
    yields sequence 1, and any later clock yields sequence 0 at that
    millisecond. *)
Theorem first_call_on_fresh_generator w d s0 nanos clk :
  New w d = inl s0 ->
  (millis nanos < 0 ->
   NextId s0 (nanos :: clk) =
   Some (Err (Errorf
                "Clock moved backwards.  Refusing to generate id for %d milliseconds"
                (- millis nanos)),
         s0, clk)) /\
  (millis nanos = 0 ->
   NextId s0 (nanos :: clk) =
   Some (Ok (compose 0 (mkSnowflake 0 w d 1)), mkSnowflake 0 w d 1, clk)) /\
  (0 < millis nanos ->
   NextId s0 (nanos :: clk) =
   Some (Ok (compose (millis nanos) (mkSnowflake (millis nanos) w d 0)),
         mkSnowflake (millis nanos) w d 0, clk)).
Proof.
  intros HN.
  assert (E : s0 = mkSnowflake 0 w d 0).
  { unfold New in HN.
    destruct ((w <? 0) || (w >? maxWorkerId)); [discriminate |].
    destruct ((d <? 0) || (d >? maxDatacenterId)); [discriminate |].
    injection HN as <-. reflexivity. }
  subst s0. split; [| split]; intros H.
  - rewrite NextId_regress by exact H. cbn [lastTimestamp].
    unfold Int64.sub. rewrite wrap_small.
    + reflexivity.
    + pose proof (millis_bounds nanos). unfold maxMillis in *.
      int64_unfold. lia.
  - rewrite NextId_same; [reflexivity | exact H | cbn; discriminate].
  - rewrite NextId_advance by exact H. reflexivity.
Qed.

Lemma first_call_on_fresh_generator_witness :
  NextId (mkSnowflake 0 3 7 0) [nanosOf 0]
  = Some (Ok (compose 0 (mkSnowflake 0 3 7 1)), mkSnowflake 0 3 7 1, []) /\
  sequenceOf (compose 0 (mkSnowflake 0 3 7 1)) = 1.
Proof.
  split; [| reflexivity].
  exact (proj1 (proj2 (first_call_on_fresh_generator 3 7 _ (nanosOf 0) []
                         eq_refl)) eq_refl).
Defined.

(** X16.  [New] checks [workerId] first: when it is out of range the error
    is the worker-id error, which names the bound 31, whatever
    [datacenterId] is. *)
Theorem New_checks_workerId_first w d :
  w < 0 \/ 31 < w ->
  exists e,
    New w d = inr e /\
    Error e = "worker Id can't be greater than 31 or less than 0"%string.
Proof.
  intros Hw. rewrite (New_inr_worker w d Hw).
  eexists. split; reflexivity.
Qed.

Lemma New_checks_workerId_first_witness :
  exists e,
    New (-5) 99 = inr e /\
    Error e = "worker Id can't be greater than 31 or less than 0"%string.
Proof.
  apply New_checks_workerId_first. left. reflexivity.
Defined.

Lemma constructed_generators_are_valid_witness :
  valid (mkSnowflake 1600000000000 3 7 1) /\
  workerId (mkSnowflake 1600000000000 3 7 1) = 3 /\
  datacenterId (mkSnowflake 1600000000000 3 7 1) = 7.
Proof.
  assert (HN : New 3 7 = inl (mkSnowflake 0 3 7 0)) by reflexivity.
  assert (H1 : NextId (mkSnowflake 0 3 7 0) [nanosOf 1600000000000]
               = Some (Ok 93079994368929792, mkSnowflake 1600000000000 3 7 0, []))
    by reflexivity.
  assert (H2 : NextId (mkSnowflake 1600000000000 3 7 0) [nanosOf 1600000000000]
               = Some (Ok 93079994368929793, mkSnowflake 1600000000000 3 7 1, []))
    by reflexivity.
  exact (constructed_generators_are_valid 3 7 _ _ HN
           (steps_call _ _ _ _ _ _
              (steps_call _ _ _ _ _ _ (steps_refl _) H1) H2)).
Defined.

(** ** The package test *)




Lemma strictly_increasing_nondecreasing clk :
  StronglySorted (fun a b => millis a < millis b) clk -> nondecreasing clk.
Proof.
  unfold nondecreasing. induction 1 as [| x c _ IH Hx]; constructor.
  - exact IH.
  - eapply Forall_impl; [| exact Hx]. cbn. intros. lia.
Qed.



(** ** The end of uniqueness *)

Lemma wrap_period z : Int64.wrap (z + 2 ^ 64) = Int64.wrap z.
Proof.
  int64_unfold.
  replace (z + 2 ^ 64 + 2 ^ 63) with (z + 2 ^ 63 + 1 * 2 ^ 64) by lia.
  rewrite Z.mod_add by lia. reflexivity.
Qed.

(** X18.  Identifiers repeat with a period of 2^42 milliseconds: the shifted
    timestamp wraps around 64 bits, so a generator that reads a new
    millisecond [t] issues the very identifier it would issue on reading
    [t + 2^42]. *)
Theorem id_repeats_after_2_pow_42_milliseconds s nanos1 nanos2 clk1 clk2 :
  valid s ->
  lastTimestamp s < millis nanos1 ->
  millis nanos2 = millis nanos1 + 2 ^ 42 ->
  exists id s1 s2,
    NextId s (nanos1 :: clk1) = Some (Ok id, s1, clk1) /\
    NextId s (nanos2 :: clk2) = Some (Ok id, s2, clk2) /\
    lastTimestamp s2 = lastTimestamp s1 + 2 ^ 42.
Proof.
  intros (Hw & Hd & Hq & Ht) H1 H2.
  rewrite (NextId_advance s nanos1 clk1 H1).
  rewrite (NextId_advance s nanos2 clk2) by lia.
  assert (Hz : 0 <= 0 <= sequenceMask) by (rewrite sequenceMask_eq; lia).
  assert (E : compose (millis nanos2) (issued s (millis nanos2) 0)
              = compose (millis nanos1) (issued s (millis nanos1) 0)).
  { rewrite !compose_pack; try assumption; try apply millis_bounds.
    cbn [issued datacenterId workerId sequence].
    rewrite H2. unfold pack.
    replace ((millis nanos1 + 2 ^ 42 - twepoch) * 2 ^ 22
             + datacenterId s * 2 ^ 17 + workerId s * 2 ^ 12 + 0)
      with ((millis nanos1 - twepoch) * 2 ^ 22
            + datacenterId s * 2 ^ 17 + workerId s * 2 ^ 12 + 0 + 2 ^ 64)
      by lia.
    apply wrap_period. }
  rewrite E. eexists. eexists. eexists.
  split; [reflexivity | split; [reflexivity |]].
  cbn [issued lastTimestamp]. exact H2.
Qed.

Lemma id_repeats_after_2_pow_42_milliseconds_witness :
  exists id s1 s2,
    NextId (mkSnowflake 0 3 7 0) [nanosOf twepoch]
    = Some (Ok id, s1, []) /\
    NextId (mkSnowflake 0 3 7 0) [nanosOf (twepoch + 2 ^ 42)]
    = Some (Ok id, s2, []) /\
    lastTimestamp s2 = lastTimestamp s1 + 2 ^ 42.
Proof.
  assert (V : valid (mkSnowflake 0 3 7 0)) by valid_by_computation.
  apply (id_repeats_after_2_pow_42_milliseconds (mkSnowflake 0 3 7 0)
           (nanosOf twepoch) (nanosOf (twepoch + 2 ^ 42)) [] [] V);
    reflexivity.
Defined.
